(** * A persistent copy-on-write trie: [Trie::Get], [Trie::Put], [Trie::Remove]

    Shallow embedding of [src/primer/trie.cpp].

    Nodes are immutable objects held through [std::shared_ptr<const TrieNode>].
    Two versions of a trie share nodes, and the sharing is part of what the
    program promises, so the embedding keeps an explicit object store: a
    pointer is either null or the address of a node, [std::make_shared]
    appends a node to the store, and no operation ever overwrites a stored
    node.  Reclamation by reference counting is not modelled: a node that is
    no longer referenced simply stays in the store.

    Dereferencing a null or invalid pointer, [std::map::at] on a missing key
    and [key[ind]] out of range are undefined behaviour or an uncaught
    exception in the program; all of them are the outcome [Fault] here. *)

From Stdlib Require Import Ascii String.
From stdpp Require Import gmap strings list fin_maps.

(** ** Outcomes and the store monad *)

Inductive outcome (A : Type) : Type :=
  | Ok (a : A)
  | Fault
  | OutOfFuel.
Arguments Ok {A} a.
Arguments Fault {A}.
Arguments OutOfFuel {A}.

Definition obind {A B : Type} (m : outcome A) (k : A → outcome B) : outcome B :=
  match m with
  | Ok a => k a
  | Fault => Fault
  | OutOfFuel => OutOfFuel
  end.

Notation "'do' x <- m ; k" := (obind m (λ x, k))
  (at level 10, x name, m at level 100, k at level 200).

(** The address of a stored node. *)
Abbreviation addr := nat.

(** [std::shared_ptr<const TrieNode>]: [None] is [nullptr]. *)
Abbreviation ptr := (option addr).

Section trie.
(** The template parameter [T] ranges over [TypeId]; [cpp_type T] is the type
    of the values of [T].  Run-time type identification compares type ids.
    Moving a value into a node ([std::move], [std::make_shared<T>]) is taken to
    be a total operation without effect on the trie. *)
Context {TypeId : Type} `{!EqDecision TypeId} (cpp_type : TypeId → Type).

(** Modelled from the spec: the declarations of [primer/trie.h], which is not
    part of the sources.  A node owns [children_], a map from a key unit to a
    child pointer, and [is_value_node_], which is true exactly for the nodes
    of class [TrieNodeWithValue<T>]; those also own the payload [value_]. *)
Inductive TrieNode : Type :=
  | PlainTrieNode (children : gmap ascii ptr)
  | TrieNodeWithValue (T : TypeId) (children : gmap ascii ptr) (value : cpp_type T).

Definition children_ (n : TrieNode) : gmap ascii ptr :=
  match n with
  | PlainTrieNode c => c
  | TrieNodeWithValue _ c _ => c
  end.

Definition is_value_node_ (n : TrieNode) : bool :=
  match n with
  | PlainTrieNode _ => false
  | TrieNodeWithValue _ _ _ => true
  end.

(** Modelled from the spec: [TrieNode::Contains(ch)], declared in
    [primer/trie.h]: whether [children_] has an entry for [ch]. *)
Definition Contains (n : TrieNode) (ch : ascii) : bool :=
  match children_ n !! ch with
  | Some _ => true
  | None => false
  end.

(** Modelled from the spec: [TrieNode::Clone()], declared in [primer/trie.h]:
    a new node of the same class with the same children and the same payload. *)
Definition Clone (n : TrieNode) : TrieNode :=
  match n with
  | PlainTrieNode c => PlainTrieNode c
  | TrieNodeWithValue T c v => TrieNodeWithValue T c v
  end.

(** [clone_node->children_ = ...] on a node that is not shared yet. *)
Definition set_children (n : TrieNode) (c : gmap ascii ptr) : TrieNode :=
  match n with
  | PlainTrieNode _ => PlainTrieNode c
  | TrieNodeWithValue T _ v => TrieNodeWithValue T c v
  end.

(** The type-erased payload of a node with its run-time type. *)
Definition payload (n : TrieNode) : option (sigT cpp_type) :=
  match n with
  | PlainTrieNode _ => None
  | TrieNodeWithValue T _ v => Some (existT T v)
  end.

(** [dynamic_cast<const TrieNodeWithValue<T> *>] on a node: the payload at
    type [T] when the node is of class [TrieNodeWithValue<T>]. *)
Definition dynamic_cast_node (T : TypeId) (n : TrieNode) : option (cpp_type T) :=
  match n with
  | PlainTrieNode _ => None
  | TrieNodeWithValue A _ v =>
      match decide (A = T) with
      | left e => Some (eq_rect A cpp_type v T e)
      | right _ => None
      end
  end.

(** The object store, and the state-and-fault monad of the operations that
    allocate. *)
Definition heap := list TrieNode.

Definition M (A : Type) : Type := heap → outcome (A * heap).

Definition ret {A : Type} (a : A) : M A := λ h, Ok (a, h).

Definition bind {A B : Type} (m : M A) (k : A → M B) : M B :=
  λ h, match m h with
       | Ok (a, h') => k a h'
       | Fault => Fault
       | OutOfFuel => OutOfFuel
       end.

Definition lift {A : Type} (o : outcome A) : M A :=
  λ h, match o with
       | Ok a => Ok (a, h)
       | Fault => Fault
       | OutOfFuel => OutOfFuel
       end.

(** [*p] and [p->...]. *)
Definition load (h : heap) (p : ptr) : outcome TrieNode :=
  match p with
  | None => Fault
  | Some a =>
      match h !! a with
      | Some n => Ok n
      | None => Fault
      end
  end.

Definition deref (p : ptr) : M TrieNode := λ h, lift (load h p) h.

(** [std::make_shared] (and the conversion of the [std::unique_ptr] that
    [Clone] returns): a new object at a fresh address. *)
Definition make_shared (n : TrieNode) : M ptr :=
  λ h, Ok (Some (length h), h ++ [n]).

(** [std::map::at]. *)
Definition map_at (m : gmap ascii ptr) (ch : ascii) : outcome ptr :=
  match m !! ch with
  | Some c => Ok c
  | None => Fault
  end.

(** [dynamic_cast] on a pointer: null stays null, otherwise the object is
    inspected. *)
Definition dynamic_cast (T : TypeId) (h : heap) (p : ptr)
  : outcome (option (TrieNode * cpp_type T)) :=
  match p with
  | None => Ok None
  | Some _ =>
      do n <- load h p;
      Ok (match dynamic_cast_node T n with
          | Some v => Some (n, v)
          | None => None
          end)
  end.

Record Trie : Type := mkTrie { root_ : ptr }.

(** ** [Trie::Get] *)

(** The loop [for (const auto &ch : key)]: [Ok None] is the early
    [return nullptr], [Ok (Some p)] the pointer reached at the end. *)
Fixpoint Get_loop (h : heap) (p : ptr) (key : list ascii) : outcome (option ptr) :=
  match key with
  | [] => Ok (Some p)
  | ch :: key' =>
      do n <- load h p;
      if negb (Contains n ch) then Ok None
      else do c <- map_at (children_ n) ch; Get_loop h c key'
  end.

Definition Get (T : TypeId) (h : heap) (t : Trie) (key : list ascii)
  : outcome (option (cpp_type T)) :=
  match root_ t with
  | None => Ok None
  | Some _ =>
      match key with
      | [] =>
          do n <- load h (root_ t);
          if negb (is_value_node_ n) then Ok None
          else
            do val_ptr <- dynamic_cast T h (root_ t);
            match val_ptr with
            | None => Ok None
            | Some (_, v) => Ok (Some v)
            end
      | _ :: _ =>
          do r <- Get_loop h (root_ t) key;
          match r with
          | None => Ok None
          | Some p =>
              do val_ptr <- dynamic_cast T h p;
              match val_ptr with
              | None => Ok None
              | Some (n, v) =>
                  if negb (is_value_node_ n) then Ok None else Ok (Some v)
              end
          end
      end
  end.

(** ** [Trie::Put] *)

Notation "'let*' x ':=' m 'in' k" := (bind m (λ x, k))
  (at level 10, x name, m at level 100, k at level 200).

(** The lambda [dfs] of [Put]. *)
Fixpoint Put_dfs (T : TypeId) (value : cpp_type T) (kv : list ascii) (node : ptr)
  : M ptr :=
  match kv with
  | [] =>
      let* n := deref node in
      make_shared (TrieNodeWithValue T (children_ n) value)
  | ch :: kv' =>
      match node with
      | None =>
          let* next_node := make_shared (PlainTrieNode ∅) in
          let* r := Put_dfs T value kv' next_node in
          make_shared (PlainTrieNode (<[ch := r]> ∅))
      | Some _ =>
          let* n := deref node in
          let* next_node :=
            (if Contains n ch then lift (map_at (children_ n) ch)
             else make_shared (PlainTrieNode ∅)) in
          let* r := Put_dfs T value kv' next_node in
          let children := <[ch := r]> (children_ n) in
          if is_value_node_ n
          then make_shared (set_children (Clone n) children)
          else make_shared (PlainTrieNode children)
      end
  end.

Definition Put (T : TypeId) (h : heap) (t : Trie) (key : list ascii)
    (value : cpp_type T) : outcome (Trie * heap) :=
  (let* root :=
     (match root_ t with
      | None => make_shared (PlainTrieNode ∅)
      | Some _ => ret (root_ t)
      end) in
   let* r := Put_dfs T value key root in
   ret (mkTrie r)) h.

(** ** [Trie::Remove] *)

(** The lambda [dfs] of [Remove], which recurses on the index [ind] into the
    captured [key].  [fuel] bounds the depth of the recursion.  On the path the
    clone of the node is built after the recursive call and before the test
    for pruning, so it is stored also when [nullptr] is returned and the clone
    is dropped; its children are updated while nothing else points to it, and
    it is stored with the updated children.  The index is an
    [int] in the source and is compared with [static_cast<int>(key.size())];
    the depth of the recursion is the length of the key, which is far below
    [2^31], and the index is a natural number here. *)
Fixpoint Remove_dfs (fuel : nat) (key : list ascii) (node : ptr) (ind : nat)
  : M ptr :=
  match fuel with
  | 0 => λ _, OutOfFuel
  | S fuel' =>
      if bool_decide (ind = length key) then
        let* n := deref node in
        if negb (is_value_node_ n) then ret node
        else if bool_decide (children_ n = ∅) then ret None
        else make_shared (PlainTrieNode (children_ n))
      else
        match key !! ind with
        | None => λ _, Fault
        | Some ch =>
            let* n := deref node in
            if negb (Contains n ch) then ret node
            else
              let* c := lift (map_at (children_ n) ch) in
              let* next_node := Remove_dfs fuel' key c (ind + 1) in
              let clone := Clone n in
              let children :=
                match next_node with
                | None => delete ch (children_ clone)
                | Some _ => <[ch := next_node]> (children_ clone)
                end in
              let* clone_node := make_shared (set_children clone children) in
              if bool_decide (children = ∅) && negb (is_value_node_ n)
              then ret None
              else ret clone_node
        end
  end.

Definition Remove (h : heap) (t : Trie) (key : list ascii) : outcome (Trie * heap) :=
  (let* r := Remove_dfs (S (length key)) key (root_ t) 0 in
   ret (mkTrie r)) h.

End trie.


Arguments PlainTrieNode {TypeId cpp_type} children.
Arguments TrieNodeWithValue {TypeId cpp_type} T children value.
Arguments children_ {TypeId cpp_type} n.
Arguments is_value_node_ {TypeId cpp_type} n.
Arguments Contains {TypeId cpp_type} n ch.
Arguments Clone {TypeId cpp_type} n.
Arguments set_children {TypeId cpp_type} n c.
Arguments payload {TypeId cpp_type} n.
Arguments dynamic_cast_node {TypeId _ cpp_type} T n.
Arguments load {TypeId cpp_type} h p.
Arguments deref {TypeId cpp_type} p _.
Arguments make_shared {TypeId cpp_type} n _.
Arguments dynamic_cast {TypeId _ cpp_type} T h p.
Arguments Get_loop {TypeId cpp_type} h p key.
Arguments Get {TypeId _ cpp_type} T h t key.
Arguments Put_dfs {TypeId cpp_type} T value kv node _.
Arguments Put {TypeId cpp_type} T h t key value.
Arguments Remove_dfs {TypeId cpp_type} fuel key node ind _.
Arguments Remove {TypeId cpp_type} h t key.

(** ** Invariants of a trie in a store *)

Section invariants.
Context {TypeId : Type} `{!EqDecision TypeId} {cpp_type : TypeId → Type}.
Abbreviation TrieNode := (TrieNode cpp_type).
Abbreviation heap := (heap cpp_type).

(** Memory safety: the pointer leads to a tree of stored nodes and no child
    entry holds a null pointer. *)
Inductive wf_node (h : heap) : addr → Prop :=
  | wf_node_intro (a : addr) (n : TrieNode) :
      h !! a = Some n →
      (∀ ch, children_ n !! ch ≠ Some None) →
      (∀ ch a', children_ n !! ch = Some (Some a') → wf_node h a') →
      wf_node h a.

Definition wf_ptr (h : heap) (p : ptr) : Prop :=
  match p with
  | None => True
  | Some a => wf_node h a
  end.

Definition wf_trie (h : heap) (t : Trie) : Prop := wf_ptr h (root_ t).

(** The data-model invariant of the trie: every node below the pointer, the
    pointed one included, holds a value or has a child. *)
Inductive pruned_node (h : heap) : addr → Prop :=
  | pruned_node_intro (a : addr) (n : TrieNode) :
      h !! a = Some n →
      is_value_node_ n = true ∨ children_ n ≠ ∅ →
      (∀ ch a', children_ n !! ch = Some (Some a') → pruned_node h a') →
      pruned_node h a.

Definition pruned_ptr (h : heap) (p : ptr) : Prop :=
  match p with
  | None => True
  | Some a => pruned_node h a
  end.

Definition pruned_trie (h : heap) (t : Trie) : Prop := pruned_ptr h (root_ t).

(** The children of the node at [a] satisfy the data-model invariant (the
    node itself may be a fresh one without children). *)
Definition pruned_kids (h : heap) (a : addr) : Prop :=
  ∀ n ch a', h !! a = Some n → children_ n !! ch = Some (Some a') → pruned_node h a'.

(** The nodes reachable from a pointer by following child entries. *)
Inductive reachable (h : heap) : ptr → addr → Prop :=
  | reachable_here (a : addr) : reachable h (Some a) a
  | reachable_child (a : addr) (n : TrieNode) (ch : ascii) (c : ptr) (b : addr) :
      h !! a = Some n →
      children_ n !! ch = Some c →
      reachable h c b →
      reachable h (Some a) b.

(** The child pointer a node has for a key unit, null when it has none. *)
Definition child (n : TrieNode) (ch : ascii) : ptr :=
  default None (children_ n !! ch).

(** The children [Remove] leaves in the clone of a node on the path: the entry
    for [ch] is erased when the child below became empty, and is set to the
    new child otherwise. *)
Definition updated_children (n : TrieNode) (ch : ascii) (next_node : ptr)
  : gmap ascii ptr :=
  match next_node with
  | None => delete ch (children_ n)
  | Some _ => <[ch := next_node]> (children_ n)
  end.

(** The address a path leads to from the root of a trie, found with the
    traversal of [Get]; [None] when the trie has no node there. *)
Definition addr_at (h : heap) (t : Trie) (path : list ascii) : option addr :=
  match root_ t with
  | None => None
  | Some _ =>
      match Get_loop h (root_ t) path with
      | Ok (Some (Some q)) => Some q
      | _ => None
      end
  end.

(** The node stored there. *)
Definition node_at (h : heap) (t : Trie) (path : list ascii) : option TrieNode :=
  match addr_at h t path with
  | Some q => h !! q
  | None => None
  end.

(** How a node [n'] that [Put] builds at a non-terminal position relates to
    the node [old] the prior version had there: with a prior node, the
    children differ in the entry of the next key unit [ch] alone and the
    payload is the same; without one, the new node has that entry alone and
    no value. *)
Definition frame_step (old : option TrieNode) (n' : TrieNode) (ch : ascii) : Prop :=
  match old with
  | Some n =>
      (∃ r', children_ n' = <[ch := Some r']> (children_ n)) ∧
      payload n' = payload n
  | None =>
      (∃ r', children_ n' = {[ch := Some r']}) ∧
      is_value_node_ n' = false
  end.

(** Sequences of updates, run from a trie in a store. *)
Inductive op : Type :=
  | OpPut (T : TypeId) (key : list ascii) (value : cpp_type T)
  | OpRemove (key : list ascii).

Definition apply_op (o : op) (s : Trie * heap) : outcome (Trie * heap) :=
  match o with
  | OpPut T key value => Put T (snd s) (fst s) key value
  | OpRemove key => Remove (snd s) (fst s) key
  end.

Fixpoint run (ops : list op) (s : Trie * heap) : outcome (Trie * heap) :=
  match ops with
  | [] => Ok s
  | o :: ops' => do s' <- apply_op o s; run ops' s'
  end.

(** [Trie()]: no root, in an empty store. *)
Definition empty_trie : Trie * heap := (mkTrie None, []).
End invariants.

(** ** The instantiations used in the examples *)

Inductive InstType : Type := uint32_t | uint64_t | std_string.

Global Instance InstType_eq_dec : EqDecision InstType.
Proof. solve_decision. Defined.

Definition inst (T : InstType) : Type :=
  match T with
  | uint32_t => N
  | uint64_t => N
  | std_string => string
  end.

Definition key_of (s : string) : list ascii := list_ascii_of_string s.

(** The trie after [Put("a", 1)], [Put("ab", 2)] and [Put("abc", "three")]. *)
Definition example_ops : list (op (cpp_type := inst)) :=
  [ OpPut uint32_t (key_of "a") 1%N;
    OpPut uint64_t (key_of "ab") 2%N;
    OpPut std_string (key_of "abc") "three"%string ].

Definition example_state : Trie * heap inst :=
  match run example_ops empty_trie with
  | Ok s => s
  | _ => empty_trie
  end.

Definition example_trie : Trie := fst example_state.
Definition example_heap : heap inst := snd example_state.

(** The trie after [Put("a", 1)] alone. *)
Definition single_ops : list (op (cpp_type := inst)) :=
  [ OpPut uint32_t (key_of "a") 1%N ].

Definition single_state : Trie * heap inst :=
  match run single_ops empty_trie with
  | Ok s => s
  | _ => empty_trie
  end.

Definition single_trie : Trie := fst single_state.
Definition single_heap : heap inst := snd single_state.

(** ** Basic facts *)

Section basics.
Context {TypeId : Type} `{!EqDecision TypeId} {cpp_type : TypeId → Type}.
Abbreviation TrieNode := (TrieNode cpp_type).
Abbreviation heap := (heap cpp_type).
Implicit Types (h : heap) (n : TrieNode) (a : addr) (p : ptr) (key : list ascii).

Lemma dynamic_cast_node_same T c (v : cpp_type T) :
  dynamic_cast_node T (TrieNodeWithValue T c v) = Some v.
Proof.
  simpl. destruct (decide (T = T)) as [e|]; [|done].
  by rewrite (proof_irrel e eq_refl).
Qed.

Lemma dynamic_cast_node_other A B c (v : cpp_type A) :
  A ≠ B → dynamic_cast_node B (TrieNodeWithValue A c v) = None.
Proof. intros. simpl. by destruct (decide (A = B)). Qed.

Lemma dynamic_cast_node_set_children T n c :
  dynamic_cast_node T (set_children n c) = dynamic_cast_node T n.
Proof. by destruct n. Qed.

Lemma children_set_children n c : children_ (set_children n c) = c.
Proof. by destruct n. Qed.

Lemma is_value_node_set_children n c :
  is_value_node_ (set_children n c) = is_value_node_ n.
Proof. by destruct n. Qed.

Lemma payload_set_children n c : payload (set_children n c) = payload n.
Proof. by destruct n. Qed.

Lemma Clone_id n : Clone n = n.
Proof. by destruct n. Qed.

Lemma plain_set_children n c :
  is_value_node_ n = false → PlainTrieNode c = set_children n c.
Proof. by destruct n. Qed.

Lemma child_Some n ch a : children_ n !! ch = Some (Some a) → child n ch = Some a.
Proof. unfold child. by intros ->. Qed.

Lemma child_None n ch : children_ n !! ch = None → child n ch = None.
Proof. unfold child. by intros ->. Qed.

(** *** The store only grows *)

Lemma wf_node_mono h h' a : wf_node h a → h `prefix_of` h' → wf_node h' a.
Proof.
  induction 1 as [a n Ha Hnn _ IH]; intros Hp.
  econstructor; eauto using prefix_lookup_Some.
Qed.

Lemma wf_ptr_mono h h' p : wf_ptr h p → h `prefix_of` h' → wf_ptr h' p.
Proof. destruct p; simpl; eauto using wf_node_mono. Qed.

Lemma pruned_node_mono h h' a : pruned_node h a → h `prefix_of` h' → pruned_node h' a.
Proof.
  induction 1 as [a n Ha Hv _ IH]; intros Hp.
  econstructor; eauto using prefix_lookup_Some.
Qed.

Lemma pruned_ptr_mono h h' p : pruned_ptr h p → h `prefix_of` h' → pruned_ptr h' p.
Proof. destruct p; simpl; eauto using pruned_node_mono. Qed.

Lemma wf_node_inv h a n :
  wf_node h a → h !! a = Some n →
  (∀ ch, children_ n !! ch ≠ Some None) ∧
  (∀ ch a', children_ n !! ch = Some (Some a') → wf_node h a').
Proof. intros Hwf Ha. inversion Hwf; simplify_eq. by split. Qed.

Lemma wf_ptr_child h a n ch :
  wf_node h a → h !! a = Some n → wf_ptr h (child n ch).
Proof.
  intros Hwf Ha. destruct (wf_node_inv _ _ _ Hwf Ha) as [_ Hk].
  unfold child. destruct (children_ n !! ch) as [[b|]|] eqn:E; simpl; eauto.
Qed.

Lemma wf_node_stored h a : wf_node h a → ∃ n, h !! a = Some n.
Proof. intros Hwf. inversion Hwf; eauto. Qed.

Lemma pruned_ptr_child h a n ch :
  pruned_kids h a → (∀ c, children_ n !! c ≠ Some None) →
  h !! a = Some n → pruned_ptr h (child n ch).
Proof.
  intros Hk Hnn Ha. unfold child.
  destruct (children_ n !! ch) as [[b|]|] eqn:E; simpl; eauto.
Qed.

Lemma pruned_node_kids h a : pruned_node h a → pruned_kids h a.
Proof. intros Hp n ch b Ha Hc. inversion Hp; simplify_eq. eauto. Qed.

(** *** [Get] by cases on the key *)

Lemma Get_no_root T h key : Get T h (mkTrie None) key = Ok None.
Proof. done. Qed.

Lemma Get_nil T h a n :
  h !! a = Some n →
  Get T h (mkTrie (Some a)) [] = Ok (dynamic_cast_node T n).
Proof.
  intros Ha. unfold Get, dynamic_cast; simpl. rewrite Ha; simpl.
  destruct n as [c|A c v]; simpl; [done|].
  by destruct (decide (A = T)).
Qed.

Lemma Get_cons T h a n ch key :
  h !! a = Some n →
  (∀ c, children_ n !! c ≠ Some None) →
  Get T h (mkTrie (Some a)) (ch :: key) = Get T h (mkTrie (child n ch)) key.
Proof.
  intros Ha Hnn. unfold Get at 1; simpl. rewrite Ha; simpl.
  unfold Contains, map_at, child. specialize (Hnn ch).
  destruct (children_ n !! ch) as [[b|]|] eqn:E; simpl; try done.
  destruct key as [|c key]; [|done]. simpl.
  unfold Get, dynamic_cast; simpl.
  destruct (h !! b) as [nb|]; simpl; [|done].
  destruct nb as [cb|A cb v]; simpl; [done|].
  by destruct (decide (A = T)).
Qed.

Lemma Get_mono T h h' p key :
  wf_ptr h p → h `prefix_of` h' →
  Get T h' (mkTrie p) key = Get T h (mkTrie p) key.
Proof.
  intros Hwf Hp. destruct p as [a|]; [|done]. simpl in Hwf.
  revert key. induction Hwf as [a n Ha Hnn Hk IH]; intros key.
  pose proof (prefix_lookup_Some _ _ _ _ Ha Hp) as Ha'.
  destruct key as [|ch key].
  - by rewrite (Get_nil _ _ _ _ Ha), (Get_nil _ _ _ _ Ha').
  - rewrite (Get_cons _ _ _ _ _ _ Ha Hnn), (Get_cons _ _ _ _ _ _ Ha' Hnn).
    unfold child. destruct (children_ n !! ch) as [[b|]|] eqn:E; simpl; eauto.
Qed.

Lemma Get_wf_ok T h p key :
  wf_ptr h p → ∃ r, Get T h (mkTrie p) key = Ok r.
Proof.
  intros Hwf. destruct p as [a|]; [|by eexists]. simpl in Hwf.
  revert key. induction Hwf as [a n Ha Hnn Hk IH]; intros key.
  destruct key as [|ch key].
  - rewrite (Get_nil _ _ _ _ Ha). eauto.
  - rewrite (Get_cons _ _ _ _ _ _ Ha Hnn).
    unfold child. destruct (children_ n !! ch) as [[b|]|] eqn:E; simpl; eauto.
Qed.
End basics.

(** Name the node a well-formed pointer leads to, and what is known of its
    children. *)
Ltac open_node Hwf n Ha Hnn Hk :=
  destruct (wf_node_stored _ _ Hwf) as [n Ha];
  destruct (wf_node_inv _ _ _ Hwf Ha) as [Hnn Hk].

(** ** [Put] *)

Section put.
Context {TypeId : Type} `{!EqDecision TypeId} {cpp_type : TypeId → Type}.
Abbreviation TrieNode := (TrieNode cpp_type).
Abbreviation heap := (heap cpp_type).
Implicit Types (h : heap) (n : TrieNode) (a : addr) (p : ptr) (key kv : list ascii).

Lemma lookup_fresh h n : (h ++ [n]) !! length h = Some n.
Proof. by apply list_lookup_middle. Qed.

Lemma prefix_snoc h n : h `prefix_of` h ++ [n].
Proof. by apply prefix_app_r. Qed.

Lemma wf_fresh h : wf_node (h ++ [PlainTrieNode ∅]) (length h).
Proof.
  econstructor; [apply lookup_fresh|..]; simpl; intros ch; by rewrite lookup_empty.
Qed.

Lemma Get_fresh T h key :
  Get T (h ++ [PlainTrieNode ∅]) (mkTrie (Some (length h))) key = Ok None.
Proof.
  destruct key as [|ch key].
  - by rewrite (Get_nil _ _ _ _ (lookup_fresh _ _)).
  - rewrite (Get_cons _ _ _ _ _ _ (lookup_fresh _ _)).
    + unfold child; simpl. by rewrite lookup_empty.
    + intros c; simpl. by rewrite lookup_empty.
Qed.

Lemma Put_dfs_nil T (v : cpp_type T) a n h :
  h !! a = Some n →
  Put_dfs T v [] (Some a) h =
    Ok (Some (length h), h ++ [TrieNodeWithValue T (children_ n) v]).
Proof. intros Ha. simpl. unfold bind, deref, lift, load. by rewrite Ha. Qed.

(** One non-terminal step of [dfs]: the next node is the existing child or a
    new empty node, and the node returned is a new object that differs from
    the current node in the one child entry. *)
Lemma Put_dfs_cons T (v : cpp_type T) ch kv a n h :
  h !! a = Some n →
  (∀ c, children_ n !! c ≠ Some None) →
  ∃ next h0,
    ((children_ n !! ch = Some (Some next) ∧ h0 = h) ∨
     (children_ n !! ch = None ∧ next = length h ∧ h0 = h ++ [PlainTrieNode ∅])) ∧
    Put_dfs T v (ch :: kv) (Some a) h =
      match Put_dfs T v kv (Some next) h0 with
      | Ok (r, h1) =>
          Ok (Some (length h1), h1 ++ [set_children n (<[ch := r]> (children_ n))])
      | Fault => Fault
      | OutOfFuel => OutOfFuel
      end.
Proof.
  intros Ha Hnn. simpl. unfold bind, deref, lift, load, Contains, map_at.
  rewrite Ha. specialize (Hnn ch).
  destruct (children_ n !! ch) as [[b|]|] eqn:E; [|done|].
  - exists b, h. split; [by left|].
    destruct (Put_dfs T v kv (Some b) h) as [[r h1]| |]; try done.
    destruct (is_value_node_ n) eqn:Ev.
    + by rewrite Clone_id.
    + unfold make_shared. by rewrite (plain_set_children n).
  - exists (length h), (h ++ [PlainTrieNode ∅]). split; [by right|].
    unfold make_shared at 1.
    destruct (Put_dfs T v kv _ _) as [[r h1]| |]; try done.
    destruct (is_value_node_ n) eqn:Ev.
    + by rewrite Clone_id.
    + unfold make_shared. by rewrite (plain_set_children n).
Qed.

Lemma next_node_facts h a n ch next h0 :
  wf_node h a → h !! a = Some n →
  ((children_ n !! ch = Some (Some next) ∧ h0 = h) ∨
   (children_ n !! ch = None ∧ next = length h ∧ h0 = h ++ [PlainTrieNode ∅])) →
  h `prefix_of` h0 ∧ wf_node h0 next ∧
  (∀ T2 k2, Get T2 h0 (mkTrie (Some next)) k2 = Get T2 h (mkTrie (child n ch)) k2) ∧
  (pruned_kids h a → pruned_kids h0 next).
Proof.
  intros Hwf Ha [[Hc ->]|(Hc & -> & ->)].
  - destruct (wf_node_inv _ _ _ Hwf Ha) as [_ Hk].
    split; [done|]. split; [eauto|]. split.
    + intros. by rewrite (child_Some _ _ _ Hc).
    + intros Hp. apply pruned_node_kids. eauto.
  - split; [apply prefix_snoc|]. split; [apply wf_fresh|]. split.
    + intros. by rewrite Get_fresh, (child_None _ _ Hc).
    + intros _ n' c b Hn' Hb. rewrite lookup_fresh in Hn'. by simplify_eq.
Qed.

(** What [dfs] returns: a new, well-formed node from which the key leads to
    the value and every other key leads where it led before. *)
Lemma Put_dfs_spec T (v : cpp_type T) kv a h :
  wf_node h a →
  ∃ r h',
    Put_dfs T v kv (Some a) h = Ok (Some r, h') ∧
    h `prefix_of` h' ∧
    wf_node h' r ∧
    (∀ T2 k2, Get T2 h' (mkTrie (Some r)) k2 =
              if decide (k2 = kv)
              then Ok (dynamic_cast_node T2 (TrieNodeWithValue T ∅ v))
              else Get T2 h (mkTrie (Some a)) k2) ∧
    (pruned_kids h a → pruned_node h' r).
Proof.
  revert a h. induction kv as [|ch kv IH]; intros a h Hwf.
  - open_node Hwf n Ha Hnn Hk.
    rewrite (Put_dfs_nil _ _ _ _ _ Ha).
    set (new := TrieNodeWithValue T (children_ n) v).
    pose proof (prefix_snoc h new) as Hp.
    pose proof (lookup_fresh h new) as Hnew.
    eexists _, _. split; [done|]. split; [done|]. split; [|split].
    + econstructor; [exact Hnew|exact Hnn|]. eauto using wf_node_mono.
    + intros T2 [|c k2].
      * rewrite (Get_nil _ _ _ _ Hnew). by rewrite decide_True.
      * rewrite (Get_cons _ _ _ _ _ _ Hnew Hnn). rewrite decide_False by done.
        rewrite (Get_cons _ _ _ _ _ _ Ha Hnn).
        change (child new c) with (child n c).
        apply Get_mono; eauto using wf_ptr_child.
    + intros Hpk. econstructor; [exact Hnew|by left|].
      intros c b Hb. eapply pruned_node_mono; eauto.
  - open_node Hwf n Ha Hnn Hk.
    destruct (Put_dfs_cons T v ch kv a n h Ha Hnn) as (next & h0 & Hcase & ->).
    destruct (next_node_facts _ _ _ _ _ _ Hwf Ha Hcase)
      as (Hp0 & Hwf0 & Hget0 & Hpk0).
    destruct (IH next h0 Hwf0) as (r & h1 & -> & Hp1 & Hwf1 & Hget1 & Hpk1).
    set (new := set_children n (<[ch := Some r]> (children_ n))).
    pose proof (prefix_snoc h1 new) as Hp.
    pose proof (lookup_fresh h1 new) as Hnew.
    assert (h `prefix_of` h1 ++ [new]) as Hp' by (by etrans; [|etrans]).
    assert (∀ c, children_ new !! c ≠ Some None) as Hnn'.
    { intros c. unfold new. rewrite children_set_children.
      destruct (decide (ch = c)) as [->|Hne].
      - by rewrite lookup_insert_eq.
      - by rewrite lookup_insert_ne. }
    eexists _, _. split; [done|]. split; [done|]. split; [|split].
    + econstructor; [exact Hnew|exact Hnn'|].
      intros c b. unfold new. rewrite children_set_children.
      destruct (decide (ch = c)) as [->|Hne].
      * rewrite lookup_insert_eq. intros ?; simplify_eq.
        eauto using wf_node_mono.
      * rewrite lookup_insert_ne by done. eauto using wf_node_mono.
    + intros T2 [|c k2].
      * rewrite (Get_nil _ _ _ _ Hnew), decide_False by done.
        rewrite (Get_nil _ _ _ _ Ha). unfold new.
        by rewrite dynamic_cast_node_set_children.
      * rewrite (Get_cons _ _ _ _ _ _ Hnew Hnn').
        rewrite (Get_cons _ _ _ _ _ _ Ha Hnn).
        unfold child at 1, new. rewrite children_set_children.
        destruct (decide (ch = c)) as [->|Hne].
        -- rewrite lookup_insert_eq; simpl.
           rewrite (Get_mono _ h1) by done. rewrite Hget1, Hget0.
           destruct (decide (k2 = kv)) as [->|Hk2].
           ++ by rewrite decide_True.
           ++ rewrite decide_False; [done|]. by intros ?; simplify_eq.
        -- rewrite lookup_insert_ne by done.
           rewrite decide_False by (by intros ?; simplify_eq).
           change (default None (children_ n !! c)) with (child n c).
           apply Get_mono; eauto using wf_ptr_child.
    + intros Hpk. econstructor; [exact Hnew| |].
      * right. unfold new. rewrite children_set_children.
        apply insert_non_empty.
      * intros c b. unfold new. rewrite children_set_children.
        destruct (decide (ch = c)) as [->|Hne].
        -- rewrite lookup_insert_eq. intros ?; simplify_eq.
           eauto using pruned_node_mono.
        -- rewrite lookup_insert_ne by done. intros Hb.
           eapply pruned_node_mono; eauto.
Qed.

(** The root [Put] starts from: the trie's root, or a new empty node. *)
Lemma Put_unfold T h t key (v : cpp_type T) :
  Put T h t key v =
    match root_ t with
    | None =>
        match Put_dfs T v key (Some (length h)) (h ++ [PlainTrieNode ∅]) with
        | Ok (r, h') => Ok (mkTrie r, h')
        | Fault => Fault
        | OutOfFuel => OutOfFuel
        end
    | Some a =>
        match Put_dfs T v key (Some a) h with
        | Ok (r, h') => Ok (mkTrie r, h')
        | Fault => Fault
        | OutOfFuel => OutOfFuel
        end
    end.
Proof.
  unfold Put, bind, ret. destruct (root_ t) as [a|]; simpl.
  - by destruct (Put_dfs T v key (Some a) h) as [[r h']| |].
  - by destruct (Put_dfs T v key _ _) as [[r h']| |].
Qed.

Lemma Put_spec T h t key (v : cpp_type T) :
  wf_trie h t →
  ∃ r h',
    Put T h t key v = Ok (mkTrie (Some r), h') ∧
    h `prefix_of` h' ∧
    wf_node h' r ∧
    (∀ T2 k2, Get T2 h' (mkTrie (Some r)) k2 =
              if decide (k2 = key)
              then Ok (dynamic_cast_node T2 (TrieNodeWithValue T ∅ v))
              else Get T2 h t k2) ∧
    (pruned_trie h t → pruned_node h' r).
Proof.
  intros Hwf. rewrite Put_unfold. destruct t as [[a|]]; simpl in *.
  - destruct (Put_dfs_spec T v key a h Hwf) as (r & h' & -> & Hp & Hwf' & Hget & Hpr).
    exists r, h'. repeat split; eauto using pruned_node_kids.
  - destruct (Put_dfs_spec T v key (length h) _ (wf_fresh h))
      as (r & h' & -> & Hp & Hwf' & Hget & Hpr).
    exists r, h'. split; [done|]. split; [by etrans; [apply prefix_snoc|]|].
    split; [done|]. split.
    + intros T2 k2. rewrite Hget. by rewrite Get_fresh.
    + intros _. apply Hpr. intros n c b Hn Hb.
      rewrite lookup_fresh in Hn. by simplify_eq.
Qed.
End put.

(** ** [Remove] *)

Section remove.
Context {TypeId : Type} `{!EqDecision TypeId} {cpp_type : TypeId → Type}.
Abbreviation TrieNode := (TrieNode cpp_type).
Abbreviation heap := (heap cpp_type).
Implicit Types (h : heap) (n : TrieNode) (a : addr) (p : ptr) (key : list ascii).

Lemma Remove_dfs_terminal fuel key a n h :
  h !! a = Some n →
  Remove_dfs (S fuel) key (Some a) (length key) h =
    if negb (is_value_node_ n) then Ok (Some a, h)
    else if bool_decide (children_ n = ∅) then Ok (None, h)
    else Ok (Some (length h), h ++ [PlainTrieNode (children_ n)]).
Proof.
  intros Ha. simpl. rewrite bool_decide_eq_true_2 by done.
  unfold bind, deref, lift, load. rewrite Ha.
  destruct (is_value_node_ n); simpl; [|done].
  by destruct (bool_decide (children_ n = ∅)).
Qed.

Lemma Remove_dfs_step fuel key a n h ind ch :
  h !! a = Some n →
  key !! ind = Some ch →
  Remove_dfs (S fuel) key (Some a) ind h =
    match children_ n !! ch with
    | None => Ok (Some a, h)
    | Some c =>
        match Remove_dfs fuel key c (ind + 1) h with
        | Ok (next_node, h1) =>
            Ok (if bool_decide (updated_children n ch next_node = ∅)
                   && negb (is_value_node_ n)
                then None
                else Some (length h1),
                h1 ++ [set_children n (updated_children n ch next_node)])
        | Fault => Fault
        | OutOfFuel => OutOfFuel
        end
    end.
Proof.
  intros Ha Hch. simpl.
  apply lookup_lt_Some in Hch as Hlt.
  rewrite bool_decide_eq_false_2 by lia. rewrite Hch.
  unfold bind, deref, lift, load, Contains, map_at. rewrite Ha.
  destruct (children_ n !! ch) as [c|]; simpl; [|done].
  destruct (Remove_dfs fuel key c (ind + 1) h) as [[next_node h1]| |]; try done.
  rewrite Clone_id.
  change (match next_node with
          | Some _ => <[ch:=next_node]> (children_ n)
          | None => delete ch (children_ n)
          end) with (updated_children n ch next_node).
  unfold make_shared, ret. by destruct (bool_decide _ && _).
Qed.

(** The recursion stops after at most [length key - ind + 1] calls, on every
    node and in every store. *)
Lemma Remove_dfs_enough_fuel fuel key p ind h :
  ind ≤ length key → length key - ind < fuel →
  Remove_dfs fuel key p ind h ≠ OutOfFuel.
Proof.
  revert p ind h. induction fuel as [|fuel IH]; intros p ind h Hle Hlt; [lia|].
  simpl. case_bool_decide as Hind.
  - unfold bind, deref, lift, load.
    destruct p as [a|]; [|done]. destruct (h !! a) as [n|]; [|done].
    destruct (negb (is_value_node_ n)); [done|].
    by destruct (bool_decide (children_ n = ∅)).
  - destruct (key !! ind) as [ch|]; [|done].
    unfold bind, deref, lift, load, map_at.
    destruct p as [a|]; [|done]. destruct (h !! a) as [n|]; [|done].
    destruct (negb (Contains n ch)); [done|].
    destruct (children_ n !! ch) as [c|]; [|done].
    specialize (IH c (ind + 1) h).
    destruct (Remove_dfs fuel key c (ind + 1) h) as [[next_node h1]| |];
      [|done|exfalso; apply IH; [lia|lia|done]].
    by destruct (bool_decide _ && _).
Qed.

Lemma Remove_dfs_more_fuel fuel fuel' key p ind h :
  Remove_dfs fuel key p ind h ≠ OutOfFuel → fuel ≤ fuel' →
  Remove_dfs fuel' key p ind h = Remove_dfs fuel key p ind h.
Proof.
  revert fuel' p ind h. induction fuel as [|fuel IH]; intros fuel' p ind h Hne Hle;
    [done|].
  destruct fuel' as [|fuel']; [lia|]. simpl in *.
  case_bool_decide as Hind; [done|].
  destruct (key !! ind) as [ch|]; [|done].
  unfold bind, deref, lift, load, map_at in *.
  destruct p as [a|]; [|done]. destruct (h !! a) as [n|]; [|done].
  destruct (negb (Contains n ch)); [done|].
  destruct (children_ n !! ch) as [c|]; [|done].
  rewrite (IH fuel' c (ind + 1) h); [done| |lia].
  by destruct (Remove_dfs fuel key c (ind + 1) h).
Qed.

Lemma updated_children_no_null n ch next_node c :
  (∀ c, children_ n !! c ≠ Some None) →
  updated_children n ch next_node !! c ≠ Some None.
Proof.
  intros Hnn. unfold updated_children. destruct next_node as [b|].
  - destruct (decide (ch = c)) as [->|Hne].
    + by rewrite lookup_insert_eq.
    + by rewrite lookup_insert_ne.
  - destruct (decide (ch = c)) as [->|Hne].
    + by rewrite lookup_delete_eq.
    + by rewrite lookup_delete_ne.
Qed.

Lemma updated_children_lookup n ch next_node c :
  default None (updated_children n ch next_node !! c) =
    if decide (c = ch) then next_node else child n c.
Proof.
  unfold updated_children, child. destruct next_node as [b|].
  - destruct (decide (c = ch)) as [->|Hne].
    + by rewrite lookup_insert_eq.
    + by rewrite lookup_insert_ne.
  - destruct (decide (c = ch)) as [->|Hne].
    + by rewrite lookup_delete_eq.
    + by rewrite lookup_delete_ne.
Qed.

Lemma dynamic_cast_node_plain T n :
  is_value_node_ n = false → dynamic_cast_node T n = None.
Proof. by destruct n. Qed.

Lemma Get_no_children T h a n ch key :
  h !! a = Some n → children_ n = ∅ →
  Get T h (mkTrie (Some a)) (ch :: key) = Ok None.
Proof.
  intros Ha He. rewrite (Get_cons _ _ _ _ _ _ Ha).
  - unfold child. by rewrite He, lookup_empty.
  - intros c. by rewrite He, lookup_empty.
Qed.

(** What [dfs] returns at position [ind]: a pointer, possibly null, to a
    well-formed node from which the rest of the key leads to nothing and every
    other key leads where it led before. *)
Lemma Remove_dfs_spec fuel key ind a h :
  wf_node h a → ind ≤ length key → length key - ind < fuel →
  ∃ r h',
    Remove_dfs fuel key (Some a) ind h = Ok (r, h') ∧
    h `prefix_of` h' ∧
    wf_ptr h' r ∧
    (∀ T2 k2, Get T2 h' (mkTrie r) k2 =
              if decide (k2 = drop ind key) then Ok None
              else Get T2 h (mkTrie (Some a)) k2) ∧
    (pruned_node h a → pruned_ptr h' r).
Proof.
  revert ind a h. induction fuel as [|fuel IH]; intros ind a h Hwf Hle Hlt; [lia|].
  open_node Hwf n Ha Hnn Hk.
  destruct (decide (ind = length key)) as [->|Hind].
  - (* the terminal node *)
    rewrite (Remove_dfs_terminal _ _ _ _ _ Ha), drop_all.
    destruct (is_value_node_ n) eqn:Hv; simpl.
    + case_bool_decide as He.
      * exists None, h. split; [done|]. split; [done|]. split; [done|]. split; [|done].
        intros T2 [|c k2]; [done|]. rewrite decide_False by done.
        by rewrite (Get_no_children _ _ _ _ _ _ Ha He).
      * set (new := PlainTrieNode (children_ n) : TrieNode).
        pose proof (prefix_snoc h new) as Hp.
        pose proof (lookup_fresh h new) as Hnew.
        eexists _, _. split; [done|]. split; [done|]. split; [|split].
        -- econstructor; [exact Hnew|exact Hnn|]. eauto using wf_node_mono.
        -- intros T2 [|c k2].
           ++ by rewrite (Get_nil _ _ _ _ Hnew), decide_True.
           ++ rewrite (Get_cons _ _ _ _ _ _ Hnew Hnn), decide_False by done.
              rewrite (Get_cons _ _ _ _ _ _ Ha Hnn).
              change (child new c) with (child n c).
              apply Get_mono; eauto using wf_ptr_child.
        -- intros Hpr. econstructor; [exact Hnew|by right|].
           intros c b Hb. eapply pruned_node_mono; [|done].
           eapply pruned_node_kids; eauto.
    + exists (Some a), h. split; [done|]. split; [done|]. split; [done|].
      split; [|done]. intros T2 [|c k2].
      * rewrite decide_True by done. rewrite (Get_nil _ _ _ _ Ha).
        by rewrite dynamic_cast_node_plain.
      * by rewrite decide_False.
  - (* a node on the path *)
    destruct (lookup_lt_is_Some_2 key ind) as [ch Hch]; [lia|].
    rewrite (Remove_dfs_step _ _ _ _ _ _ _ Ha Hch).
    rewrite (drop_S _ _ _ Hch).
    destruct (children_ n !! ch) as [[b|]|] eqn:Hc; [|by destruct (Hnn ch)|].
    + destruct (IH (S ind) b h) as (r1 & h1 & Hrun & Hp1 & Hwf1 & Hget1 & Hpr1);
        [eauto|lia|lia|].
      replace (ind + 1) with (S ind) by lia. rewrite Hrun.
      set (upd := updated_children n ch r1).
      assert (∀ c, upd !! c ≠ Some None) as Hnn'
        by (intros c; by apply updated_children_no_null).
      assert (∀ c, wf_ptr h1 (default None (upd !! c))) as Hwfu.
      { intros c. unfold upd. rewrite updated_children_lookup.
        case_decide; [done|]. eapply wf_ptr_mono; eauto using wf_ptr_child. }
      assert (∀ T2 c k2,
        Get T2 h1 (mkTrie (default None (upd !! c))) k2 =
        if decide (c :: k2 = ch :: drop (S ind) key) then Ok None
        else Get T2 h (mkTrie (Some a)) (c :: k2)) as Hgetu.
      { intros T2 c k2. unfold upd. rewrite updated_children_lookup.
        rewrite (Get_cons _ _ _ _ _ _ Ha Hnn).
        destruct (decide (c = ch)) as [->|Hne].
        - rewrite Hget1, (child_Some _ _ _ Hc).
          destruct (decide (k2 = drop (S ind) key)) as [->|Hk2].
          + by rewrite decide_True.
          + rewrite decide_False; [done|]. by intros ?; simplify_eq.
        - rewrite decide_False by (by intros ?; simplify_eq).
          apply Get_mono; eauto using wf_ptr_child. }
      assert (pruned_node h a → ∀ c, pruned_ptr h1 (default None (upd !! c))) as Hpru.
      { intros Hpr c. unfold upd. rewrite updated_children_lookup.
        case_decide.
        - apply Hpr1. eapply pruned_node_kids; eauto.
        - eapply pruned_ptr_mono; [|done].
          eapply pruned_ptr_child; eauto using pruned_node_kids. }
      destruct (bool_decide (upd = ∅) && negb (is_value_node_ n)) eqn:Hb.
      * apply andb_true_iff in Hb as [He Hv].
        apply bool_decide_eq_true_1 in He. apply negb_true_iff in Hv.
        eexists None, _. split; [done|].
        split; [by etrans; [|apply prefix_snoc]|]. split; [done|].
        split; [|done]. intros T2 [|c k2].
        -- rewrite decide_False by done. rewrite (Get_nil _ _ _ _ Ha).
           by rewrite dynamic_cast_node_plain.
        -- rewrite <-Hgetu. by rewrite He, lookup_empty.
      * set (new := set_children n upd).
        pose proof (prefix_snoc h1 new) as Hp.
        pose proof (lookup_fresh h1 new) as Hnew.
        assert (children_ new = upd) as Hcn by apply children_set_children.
        assert (∀ c, children_ new !! c ≠ Some None) as Hnn''
          by (by rewrite Hcn).
        eexists _, _. split; [done|]. split; [by etrans|]. split; [|split].
        -- econstructor; [exact Hnew|exact Hnn''|].
           intros c b'. rewrite Hcn. intros Hb'.
           specialize (Hwfu c). rewrite Hb' in Hwfu. simpl in Hwfu.
           eapply wf_node_mono; eauto.
        -- intros T2 [|c k2].
           ++ rewrite (Get_nil _ _ _ _ Hnew), decide_False by done.
              rewrite (Get_nil _ _ _ _ Ha). unfold new.
              by rewrite dynamic_cast_node_set_children.
           ++ rewrite (Get_cons _ _ _ _ _ _ Hnew Hnn'').
              unfold child. rewrite Hcn.
              rewrite (Get_mono _ h1) by done. apply Hgetu.
        -- intros Hpr. econstructor; [exact Hnew| |].
           ++ rewrite Hcn. unfold new. rewrite is_value_node_set_children.
              apply andb_false_iff in Hb as [He|Hv].
              ** right. by apply bool_decide_eq_false_1 in He.
              ** left. by apply negb_false_iff in Hv.
           ++ intros c b'. rewrite Hcn. intros Hb'.
              specialize (Hpru Hpr c). rewrite Hb' in Hpru. simpl in Hpru.
              eapply pruned_node_mono; eauto.
    + exists (Some a), h. split; [done|]. split; [done|]. split; [done|].
      split; [|done]. intros T2 k2.
      destruct (decide (k2 = ch :: drop (S ind) key)) as [->|]; [|done].
      by rewrite (Get_cons _ _ _ _ _ _ Ha Hnn), (child_None _ _ Hc).
Qed.

Lemma Remove_unfold h t key :
  Remove h t key =
    match Remove_dfs (S (length key)) key (root_ t) 0 h with
    | Ok (r, h') => Ok (mkTrie r, h')
    | Fault => Fault
    | OutOfFuel => OutOfFuel
    end.
Proof.
  unfold Remove, bind, ret.
  by destruct (Remove_dfs _ _ _ _ _) as [[r h']| |].
Qed.

Lemma Remove_spec h a key :
  wf_node h a →
  ∃ r h',
    Remove h (mkTrie (Some a)) key = Ok (mkTrie r, h') ∧
    h `prefix_of` h' ∧
    wf_ptr h' r ∧
    (∀ T2 k2, Get T2 h' (mkTrie r) k2 =
              if decide (k2 = key) then Ok None
              else Get T2 h (mkTrie (Some a)) k2) ∧
    (pruned_node h a → pruned_ptr h' r).
Proof.
  intros Hwf. rewrite Remove_unfold. cbn [root_].
  destruct (Remove_dfs_spec (S (length key)) key 0 a h Hwf)
    as (r & h' & -> & Hp & Hwf' & Hget & Hpr); [lia|lia|].
  rewrite drop_0 in Hget. by exists r, h'.
Qed.

(** [Remove] dereferences the root without testing it. *)
Lemma Remove_dfs_null fuel key ind h :
  ind ≤ length key → length key - ind < fuel →
  Remove_dfs fuel key None ind h = Fault.
Proof.
  intros Hle Hlt. destruct fuel as [|fuel]; [lia|]. simpl.
  case_bool_decide; [done|].
  destruct (lookup_lt_is_Some_2 key ind) as [ch ->]; [lia|done].
Qed.
End remove.

(** ** Tries built by the operations *)

Section runs.
Context {TypeId : Type} `{!EqDecision TypeId} {cpp_type : TypeId → Type}.
Abbreviation TrieNode := (TrieNode cpp_type).
Abbreviation heap := (heap cpp_type).
Implicit Types (h : heap) (n : TrieNode) (a : addr) (p : ptr) (key : list ascii).
Implicit Types (t : Trie) (ops : list (op (cpp_type := cpp_type))).

Lemma Put_invariant T h t key (v : cpp_type T) :
  wf_trie h t → pruned_trie h t →
  ∃ t' h', Put T h t key v = Ok (t', h') ∧ wf_trie h' t' ∧ pruned_trie h' t'.
Proof.
  intros Hwf Hpr.
  destruct (Put_spec T h t key v Hwf) as (r & h' & HP & _ & Hwf' & _ & Hpr').
  exists (mkTrie (Some r)), h'. split; [done|]. split; [done|]. by apply Hpr'.
Qed.

Lemma Remove_invariant h a key :
  wf_node h a → pruned_node h a →
  ∃ t' h', Remove h (mkTrie (Some a)) key = Ok (t', h') ∧
           wf_trie h' t' ∧ pruned_trie h' t'.
Proof.
  intros Hwf Hpr.
  destruct (Remove_spec h a key Hwf) as (r & h' & HR & _ & Hwf' & _ & Hpr').
  exists (mkTrie r), h'. split; [done|]. split; [done|]. by apply Hpr'.
Qed.

Lemma Remove_no_root h key : Remove h (mkTrie None) key = Fault.
Proof.
  rewrite Remove_unfold. cbn [root_].
  rewrite Remove_dfs_null; [done|lia|lia].
Qed.

(** A run of updates ends in a trie that satisfies the invariants, or faults
    at a [Remove] that meets a trie without a root. *)
Lemma run_outcome ops (s : Trie * heap) :
  wf_trie (snd s) (fst s) → pruned_trie (snd s) (fst s) →
  match run ops s with
  | Ok (t', h') => wf_trie h' t' ∧ pruned_trie h' t'
  | Fault =>
      ∃ ops1 key ops2 h1,
        ops = ops1 ++ OpRemove key :: ops2 ∧
        run ops1 s = Ok (mkTrie None, h1)
  | OutOfFuel => False
  end.
Proof.
  revert s. induction ops as [|o ops IH]; intros [t h]; cbn [fst snd];
    intros Hwf Hpr; [done|].
  cbn [run]. destruct o as [T key v|key]; cbn [apply_op fst snd].
  - destruct (Put_invariant T h t key v Hwf Hpr) as (t' & h' & HP & Hwf' & Hpr').
    rewrite HP. cbn [obind]. specialize (IH (t', h') Hwf' Hpr').
    destruct (run ops (t', h')) as [[t'' h'']| |]; [done| |done].
    destruct IH as (ops1 & k1 & ops2 & h1 & -> & Hrun).
    exists (OpPut T key v :: ops1), k1, ops2, h1. split; [done|].
    cbn [run apply_op fst snd]. by rewrite HP.
  - destruct t as [[a|]].
    + destruct (Remove_invariant h a key Hwf Hpr) as (t' & h' & HR & Hwf' & Hpr').
      rewrite HR. cbn [obind]. specialize (IH (t', h') Hwf' Hpr').
      destruct (run ops (t', h')) as [[t'' h'']| |]; [done| |done].
      destruct IH as (ops1 & k1 & ops2 & h1 & -> & Hrun).
      exists (OpRemove key :: ops1), k1, ops2, h1. split; [done|].
      cbn [run apply_op fst snd]. by rewrite HR.
    + rewrite Remove_no_root. cbn [obind].
      by exists [], key, ops, h.
Qed.

Lemma run_invariant ops t h :
  run ops empty_trie = Ok (t, h) → wf_trie h t ∧ pruned_trie h t.
Proof.
  intros Hrun. pose proof (run_outcome ops empty_trie I I) as H.
  by rewrite Hrun in H.
Qed.

Lemma pruned_reachable h p a n :
  pruned_ptr h p → reachable h p a → h !! a = Some n →
  is_value_node_ n = true ∨ children_ n ≠ ∅.
Proof.
  intros Hpr Hre. revert Hpr.
  induction Hre as [a|a0 n0 ch c b Ha0 Hc Hre IH]; simpl; intros Hpr Ha.
  - inversion Hpr; by simplify_eq.
  - apply IH; [|done]. destruct c as [a'|]; [|done]. simpl.
    eapply pruned_node_kids; eauto.
Qed.

(** A trie with a root that satisfies the invariants maps some key. *)
Lemma pruned_has_key h a :
  pruned_node h a → wf_node h a →
  ∃ T key (v : cpp_type T), Get T h (mkTrie (Some a)) key = Ok (Some v).
Proof.
  induction 1 as [a n Ha Hv Hk IH]; intros Hwf.
  destruct (wf_node_inv _ _ _ Hwf Ha) as [Hnn Hwk].
  destruct Hv as [Hv|Hne].
  - destruct n as [c|T c v]; [done|]. exists T, [], v.
    by rewrite (Get_nil _ _ _ _ Ha), dynamic_cast_node_same.
  - apply map_choose in Hne as (ch & [b|] & Hb); [|by destruct (Hnn ch)].
    destruct (IH ch b Hb (Hwk ch b Hb)) as (T & key & v & HG).
    exists T, (ch :: key), v.
    by rewrite (Get_cons _ _ _ _ _ _ Ha Hnn), (child_Some _ _ _ Hb).
Qed.

(** [Remove] of a key that is not mapped, on a trie with a root. *)
Lemma Remove_unmapped_rooted h a key :
  wf_node h a →
  (∀ T, Get T h (mkTrie (Some a)) key = Ok None) →
  ∃ t' h',
    Remove h (mkTrie (Some a)) key = Ok (t', h') ∧
    ∀ T k2, Get T h' t' k2 = Get T h (mkTrie (Some a)) k2.
Proof.
  intros Hwf Hun.
  destruct (Remove_spec h a key Hwf) as (r & h' & HR & _ & _ & Hget & _).
  exists (mkTrie r), h'. split; [done|]. intros T k2. rewrite Hget.
  case_decide; [by subst|done].
Qed.

(** A second [Remove] of the same key, when the first one left a root. *)
Lemma Remove_idempotent_rooted h a key t1 h1 :
  wf_node h a →
  Remove h (mkTrie (Some a)) key = Ok (t1, h1) →
  root_ t1 ≠ None →
  ∃ t2 h2,
    Remove h1 t1 key = Ok (t2, h2) ∧
    ∀ T k2, Get T h2 t2 k2 = Get T h1 t1 k2.
Proof.
  intros Hwf HR1 Hroot.
  destruct (Remove_spec h a key Hwf) as (r & h' & HR & _ & Hwf' & Hget & _).
  rewrite HR in HR1. simplify_eq. destruct r as [a1|]; [|done].
  destruct (Remove_spec h1 a1 key Hwf') as (r2 & h2 & HR2 & _ & _ & Hget2 & _).
  exists (mkTrie r2), h2. split; [done|]. intros T k2. rewrite Hget2.
  case_decide; [|done]. subst. by rewrite Hget, decide_True.
Qed.
End runs.

(** ** The path [Put] rebuilds *)

Section frame.
Context {TypeId : Type} `{!EqDecision TypeId} {cpp_type : TypeId → Type}.
Abbreviation TrieNode := (TrieNode cpp_type).
Abbreviation heap := (heap cpp_type).
Implicit Types (h : heap) (n : TrieNode) (a : addr) (p : ptr) (key pre : list ascii).

Lemma addr_at_nil h a : addr_at h (mkTrie (Some a)) [] = Some a.
Proof. done. Qed.

Lemma addr_at_cons h a n c pre :
  h !! a = Some n →
  addr_at h (mkTrie (Some a)) (c :: pre) = addr_at h (mkTrie (child n c)) pre.
Proof.
  intros Ha. unfold addr_at at 1; simpl. rewrite Ha; simpl.
  unfold Contains, map_at, child.
  destruct (children_ n !! c) as [[b|]|]; simpl; [done| |done].
  by destruct pre.
Qed.

Lemma addr_at_mono h h' p pre :
  wf_ptr h p → h `prefix_of` h' →
  addr_at h' (mkTrie p) pre = addr_at h (mkTrie p) pre.
Proof.
  intros Hwf Hp. destruct p as [a|]; [|done]. simpl in Hwf.
  revert pre. induction Hwf as [a n Ha Hnn Hk IH]; intros pre.
  pose proof (prefix_lookup_Some _ _ _ _ Ha Hp) as Ha'.
  destruct pre as [|c pre]; [done|].
  rewrite (addr_at_cons _ _ _ _ _ Ha), (addr_at_cons _ _ _ _ _ Ha').
  unfold child. destruct (children_ n !! c) as [[b|]|] eqn:E; simpl; eauto.
Qed.

Lemma node_at_nil h a n : h !! a = Some n → node_at h (mkTrie (Some a)) [] = Some n.
Proof. intros Ha. unfold node_at. by rewrite addr_at_nil. Qed.

Lemma node_at_no_root h pre : node_at h (mkTrie None) pre = None.
Proof. done. Qed.

Lemma node_at_cons h a n c pre :
  h !! a = Some n →
  node_at h (mkTrie (Some a)) (c :: pre) = node_at h (mkTrie (child n c)) pre.
Proof. intros Ha. unfold node_at. by rewrite (addr_at_cons _ _ _ _ _ Ha). Qed.

Lemma frame_step_fresh h pre n' ch :
  frame_step (node_at (h ++ [PlainTrieNode ∅]) (mkTrie (Some (length h))) pre) n' ch →
  frame_step None n' ch.
Proof.
  destruct pre as [|c pre].
  - rewrite (node_at_nil _ _ _ (lookup_fresh _ _)). simpl.
    intros [[r' Hc] Hpl]. split.
    + exists r'. by rewrite Hc, insert_empty.
    + by destruct n'.
  - rewrite (node_at_cons _ _ _ _ _ (lookup_fresh _ _)).
    unfold child; simpl. by rewrite lookup_empty.
Qed.

(** At every non-terminal position of the key, [dfs] builds a new node that is
    the prior node with the one child entry replaced. *)
Lemma Put_dfs_frame T (v : cpp_type T) pre ch rest a h :
  wf_node h a →
  ∃ r h',
    Put_dfs T v (pre ++ ch :: rest) (Some a) h = Ok (Some r, h') ∧
    ∃ q' n', addr_at h' (mkTrie (Some r)) pre = Some q' ∧
             length h ≤ q' ∧
             h' !! q' = Some n' ∧
             frame_step (node_at h (mkTrie (Some a)) pre) n' ch.
Proof.
  revert a h. induction pre as [|c pre IH]; intros a h Hwf.
  - open_node Hwf n Ha Hnn Hk.
    cbn [app].
    destruct (Put_dfs_cons T v ch rest a n h Ha Hnn) as (next & h0 & Hcase & ->).
    destruct (next_node_facts _ _ _ _ _ _ Hwf Ha Hcase) as (Hp0 & Hwf0 & _).
    destruct (Put_dfs_spec T v rest next h0 Hwf0) as (r' & h1 & -> & Hp1 & _).
    eexists _, _. split; [done|]. eexists _, _.
    split; [apply addr_at_nil|]. split; [|split].
    + apply prefix_length in Hp0, Hp1. lia.
    + apply lookup_fresh.
    + rewrite (node_at_nil _ _ _ Ha). split.
      * exists r'. by rewrite children_set_children.
      * by rewrite payload_set_children.
  - open_node Hwf n Ha Hnn Hk.
    rewrite <-app_comm_cons.
    destruct (Put_dfs_cons T v c (pre ++ ch :: rest) a n h Ha Hnn)
      as (next & h0 & Hcase & ->).
    destruct (next_node_facts _ _ _ _ _ _ Hwf Ha Hcase) as (Hp0 & Hwf0 & _).
    destruct (Put_dfs_spec T v (pre ++ ch :: rest) next h0 Hwf0)
      as (r' & h1 & Hrun & _ & Hwf1 & _).
    destruct (IH next h0 Hwf0) as (r0 & h10 & Hrun0 & q' & n' & Hq' & Hle & Hn' & Hfr).
    rewrite Hrun in Hrun0. injection Hrun0 as <- <-. rewrite Hrun.
    eexists _, _. split; [done|]. exists q', n'. split; [|split; [|split]].
    + rewrite (addr_at_cons _ _ _ _ _ (lookup_fresh _ _)).
      unfold child. rewrite children_set_children, lookup_insert_eq. simpl.
      rewrite (addr_at_mono h1); [done|done|apply prefix_snoc].
    + apply prefix_length in Hp0. lia.
    + eapply prefix_lookup_Some; [done|apply prefix_snoc].
    + rewrite (node_at_cons _ _ _ _ _ Ha).
      destruct Hcase as [[Hc ->]|(Hc & -> & ->)].
      * by rewrite (child_Some _ _ _ Hc).
      * rewrite (child_None _ _ Hc), node_at_no_root.
        by eapply frame_step_fresh.
Qed.
End frame.

(** ** The properties of the specification *)

Section claims.
Context {TypeId : Type} `{!EqDecision TypeId} {cpp_type : TypeId → Type}.
Abbreviation TrieNode := (TrieNode cpp_type).
Abbreviation heap := (heap cpp_type).
Implicit Types (h : heap) (n : TrieNode) (a : addr) (p : ptr) (key : list ascii).
Implicit Types (t : Trie) (ops : list (op (cpp_type := cpp_type))).

(** C1, which the code does not meet.  The claim: [Remove] of a key that is
    not mapped never fails and returns an equivalent trie, also on the empty
    trie, whose root is absent.  The code: no key is mapped in a trie without
    a root, and [Remove] on it dereferences the null root, whatever the key.
    ([Remove_unmapped_rooted] is the claim for the tries that have a root.) *)
Theorem Remove_absent_root_faults h key :
  (∀ T, Get (cpp_type := cpp_type) T h (mkTrie None) key = Ok None) ∧
  Remove h (mkTrie None) key = Fault.
Proof. split; [done|]. apply Remove_no_root. Qed.

(** C2.  In a well-formed trie, [Get<T>] of a key after [Put<T>] of a value
    at that key returns the value, the empty key included; and a second [Put]
    at the key overwrites the first, whatever the type of the first value. *)
Theorem Put_Get_round_trip T T1 h t key (v : cpp_type T) (v1 : cpp_type T1) :
  wf_trie h t →
  (∃ t' h', Put T h t key v = Ok (t', h') ∧ Get T h' t' key = Ok (Some v)) ∧
  (∃ t1 h1 t2 h2,
     Put T1 h t key v1 = Ok (t1, h1) ∧
     Put T h1 t1 key v = Ok (t2, h2) ∧
     Get T h2 t2 key = Ok (Some v)).
Proof.
  intros Hwf. split.
  - destruct (Put_spec T h t key v Hwf) as (r & h' & HP & _ & _ & Hget & _).
    exists (mkTrie (Some r)), h'. split; [done|].
    by rewrite Hget, decide_True, dynamic_cast_node_same.
  - destruct (Put_spec T1 h t key v1 Hwf) as (r1 & h1 & HP1 & _ & Hwf1 & _).
    destruct (Put_spec T h1 (mkTrie (Some r1)) key v Hwf1)
      as (r2 & h2 & HP2 & _ & _ & Hget & _).
    exists (mkTrie (Some r1)), h1, (mkTrie (Some r2)), h2.
    split; [done|]. split; [done|].
    by rewrite Hget, decide_True, dynamic_cast_node_same.
Qed.

(** C3, which the code does not meet.  The claim: a second [Remove] of the
    same key is a no-op, also when the first one left the trie empty.  The
    code: after [Put] of a key into the empty trie, [Remove] of the key
    returns the trie without a root, and [Remove] of the key once more
    dereferences the null root.  ([Remove_idempotent_rooted] is the claim for
    a first [Remove] that leaves a root.) *)
Theorem Remove_twice_faults T h key (v : cpp_type T) :
  ∃ t1 h1 h2,
    Put T h (mkTrie None) key v = Ok (t1, h1) ∧
    Remove h1 t1 key = Ok (mkTrie None, h2) ∧
    Remove h2 (mkTrie None) key = Fault.
Proof.
  destruct (Put_spec T h (mkTrie None) key v I)
    as (r & h1 & HP & _ & Hwf1 & Hget1 & Hpr1).
  destruct (Remove_spec h1 r key Hwf1) as (r2 & h2 & HR & _ & Hwf2 & Hget2 & Hpr2).
  exists (mkTrie (Some r)), h1, h2. split; [done|].
  split; [|apply Remove_no_root].
  destruct r2 as [a2|]; [exfalso|done].
  destruct (pruned_has_key h2 a2) as (T' & k' & v' & HG);
    [by apply Hpr2, Hpr1|done|].
  rewrite Hget2 in HG. case_decide; [done|].
  rewrite Hget1, decide_False in HG; done.
Qed.

(** C4.  When a key is mapped to a value of type [A], [Get<B>] of the key
    for another type [B] returns absence and does not fault; so it does after
    [Put<A>] of the key in a well-formed trie. *)
Theorem Get_type_mismatch A B h t key :
  A ≠ B →
  (∀ v : cpp_type A, Get A h t key = Ok (Some v) → Get B h t key = Ok None) ∧
  (∀ v : cpp_type A, wf_trie h t →
     ∃ t' h', Put A h t key v = Ok (t', h') ∧ Get B h' t' key = Ok None).
Proof.
  intros Hne.
  assert (∀ n (v : cpp_type A),
    dynamic_cast_node A n = Some v → dynamic_cast_node B n = None) as Hcast.
  { intros [c|A' c v'] v; simpl; [done|].
    destruct (decide (A' = A)) as [->|]; [|done]. by destruct (decide (A = B)). }
  split.
  - intros v. unfold Get. destruct (root_ t) as [a|]; [|done].
    destruct key as [|ch key].
    + unfold dynamic_cast; simpl. destruct (h !! a) as [n|]; simpl; [|done].
      destruct (is_value_node_ n); simpl; [|done].
      destruct (dynamic_cast_node A n) as [w|] eqn:E; [|done].
      by rewrite (Hcast _ _ E).
    + destruct (Get_loop h (Some a) (ch :: key)) as [[p|]| |]; simpl; try done.
      unfold dynamic_cast. destruct p as [b|]; [|done]. simpl.
      destruct (h !! b) as [n|]; simpl; [|done].
      destruct (dynamic_cast_node A n) as [w|] eqn:E; [|done].
      by rewrite (Hcast _ _ E).
  - intros v Hwf.
    destruct (Put_spec A h t key v Hwf) as (r & h' & HP & _ & _ & Hget & _).
    exists (mkTrie (Some r)), h'. split; [done|].
    by rewrite Hget, decide_True, dynamic_cast_node_other.
Qed.

(** C5.  In a well-formed trie, [Put] at a key leaves [Get] of every other
    key, at every type, as it was before; a key that is a prefix of the other
    is another key. *)
Theorem Put_non_interference T T2 h t k1 k2 (v : cpp_type T) :
  wf_trie h t → k1 ≠ k2 →
  ∃ t' h', Put T h t k1 v = Ok (t', h') ∧ Get T2 h' t' k2 = Get T2 h t k2.
Proof.
  intros Hwf Hne.
  destruct (Put_spec T h t k1 v Hwf) as (r & h' & HP & _ & _ & Hget & _).
  exists (mkTrie (Some r)), h'. split; [done|].
  by rewrite Hget, decide_False.
Qed.

(** C6.  In a well-formed trie, after [Put] of a key and [Remove] of that key,
    [Get] of the key returns absence, at every type. *)
Theorem Put_Remove_Get_absent T T2 h t key (v : cpp_type T) :
  wf_trie h t →
  ∃ t1 h1 t2 h2,
    Put T h t key v = Ok (t1, h1) ∧
    Remove h1 t1 key = Ok (t2, h2) ∧
    Get T2 h2 t2 key = Ok None.
Proof.
  intros Hwf.
  destruct (Put_spec T h t key v Hwf) as (r & h1 & HP & _ & Hwf1 & _).
  destruct (Remove_spec h1 r key Hwf1) as (r2 & h2 & HR & _ & _ & Hget & _).
  exists (mkTrie (Some r)), h1, (mkTrie r2), h2.
  split; [done|]. split; [done|]. by rewrite Hget, decide_True.
Qed.

(** C7.  A sequence of [Put] and [Remove] run from the empty trie ends in a
    trie in which no reachable node, the root included, is without children
    and without a value; the only other end is the fault of a [Remove] that
    meets a trie without a root. *)
Theorem pruning_invariant ops :
  match run ops empty_trie with
  | Ok (t, h) =>
      ∀ a n, reachable h (root_ t) a → h !! a = Some n →
             ¬ (children_ n = ∅ ∧ is_value_node_ n = false)
  | Fault =>
      ∃ ops1 key ops2 h1,
        ops = ops1 ++ OpRemove key :: ops2 ∧
        run ops1 empty_trie = Ok (mkTrie None, h1)
  | OutOfFuel => False
  end.
Proof.
  pose proof (run_outcome ops empty_trie I I) as H.
  destruct (run ops empty_trie) as [[t h]| |]; [|done|done].
  destruct H as [_ Hpr]. intros a n Hre Ha [He Hv].
  destruct (pruned_reachable h (root_ t) a n Hpr Hre Ha); congruence.
Qed.

(** C8.  [Put] on a well-formed trie leaves every stored node as it was, and
    at every non-terminal position of the key the new trie has a new node
    whose children are those of the node the prior trie had there, the same
    pointers, except for the entry of the next key unit, and whose payload is
    the same; where the prior trie had no node, the new node has that one
    entry and no value. *)
Theorem Put_copy_on_write_frame T h t key (v : cpp_type T) :
  wf_trie h t →
  ∃ t' h',
    Put T h t key v = Ok (t', h') ∧
    (∀ a n, h !! a = Some n → h' !! a = Some n) ∧
    (∀ pre ch rest, key = pre ++ ch :: rest →
       ∃ q' n', addr_at h' t' pre = Some q' ∧
                length h ≤ q' ∧
                h' !! q' = Some n' ∧
                frame_step (node_at h t pre) n' ch).
Proof.
  intros Hwf.
  destruct (Put_spec T h t key v Hwf) as (r & h' & HP & Hp & _).
  exists (mkTrie (Some r)), h'. split; [done|].
  split; [eauto using prefix_lookup_Some|].
  intros pre ch rest ->. rewrite Put_unfold in HP.
  destruct t as [[a|]]; cbn [root_] in HP.
  - destruct (Put_dfs_frame T v pre ch rest a h Hwf)
      as (r0 & h0 & Hrun & q' & n' & Hq' & Hle & Hn' & Hfr).
    rewrite Hrun in HP. simplify_eq. eauto 10.
  - destruct (Put_dfs_frame T v pre ch rest (length h) _ (wf_fresh h))
      as (r0 & h0 & Hrun & q' & n' & Hq' & Hle & Hn' & Hfr).
    rewrite Hrun in HP. simplify_eq. exists q', n'.
    split; [done|]. split; [rewrite length_app in Hle; lia|]. split; [done|].
    rewrite node_at_no_root. by eapply frame_step_fresh.
Qed.

(** Termination on the tries that have a root.  On a well-formed trie [Get] and
    [Put] return; the recursion of [Remove] ends within [length key + 1]
    calls, with the same outcome for every larger bound, and [Remove] returns
    a trie when the trie has a root. *)
Lemma operations_terminate T h t key (v : cpp_type T) :
  wf_trie h t →
  (∃ r, Get T h t key = Ok r) ∧
  (∃ t' h', Put T h t key v = Ok (t', h')) ∧
  (∀ fuel, length key < fuel →
     Remove_dfs fuel key (root_ t) 0 h ≠ OutOfFuel ∧
     Remove_dfs fuel key (root_ t) 0 h =
       Remove_dfs (S (length key)) key (root_ t) 0 h) ∧
  (root_ t ≠ None → ∃ t' h', Remove h t key = Ok (t', h')).
Proof.
  intros Hwf. split; [|split; [|split]].
  - destruct t as [p]. by apply Get_wf_ok.
  - destruct (Put_spec T h t key v Hwf) as (r & h' & HP & _). eauto.
  - intros fuel Hlt. split.
    + apply Remove_dfs_enough_fuel; lia.
    + apply Remove_dfs_more_fuel; [|lia].
      apply Remove_dfs_enough_fuel; lia.
  - destruct t as [[a|]]; [|done]. intros _.
    destruct (Remove_spec h a key Hwf) as (r & h' & HR & _). eauto.
Qed.

(** C9, which the code does not meet.  The claim: [Get], [Put] and [Remove]
    return on every trie and every key.  The code: on the trie without a root
    [Get] and [Put] return, and [Remove] ends in the dereference of the null
    root, whatever the key and whatever the bound on its recursion.
    ([operations_terminate] is the claim for the tries that have a root.) *)
Theorem Remove_not_total_absent_root T h key (v : cpp_type T) :
  Get T h (mkTrie None) key = Ok None ∧
  (∃ t' h', Put T h (mkTrie None) key v = Ok (t', h')) ∧
  Remove h (mkTrie None) key = Fault ∧
  (∀ fuel, length key < fuel → Remove_dfs fuel key None 0 h = Fault).
Proof.
  split; [done|]. split; [|split].
  - destruct (Put_spec T h (mkTrie None) key v I) as (r & h' & HP & _). eauto.
  - apply Remove_no_root.
  - intros fuel Hlt. apply Remove_dfs_null; lia.
Qed.

(** C10.  On a trie with a root that satisfies the invariants of the data
    model, as every trie built by the operations does ([run_invariant]),
    [Remove] returns a trie; when the key removed was the last one mapped, no
    key is mapped in the trie returned and that trie has no root; and in any
    case a trie returned in which no key is mapped has no root. *)
Theorem Remove_last_mapping h t key :
  wf_trie h t → pruned_trie h t → root_ t ≠ None →
  ∃ t' h',
    Remove h t key = Ok (t', h') ∧
    ((∀ T k2, k2 ≠ key → Get (cpp_type := cpp_type) T h t k2 = Ok None) →
     (∀ T k2, Get (cpp_type := cpp_type) T h' t' k2 = Ok None) ∧
     root_ t' = None) ∧
    ((∀ T k2, Get (cpp_type := cpp_type) T h' t' k2 = Ok None) → root_ t' = None).
Proof.
  intros Hwf Hpr Hroot. destruct t as [[a|]]; [|done].
  destruct (Remove_spec h a key Hwf) as (r & h' & HR & _ & Hwf' & Hget & Hpr').
  exists (mkTrie r), h'. split; [done|].
  assert ((∀ T k2, Get T h' (mkTrie r) k2 = Ok None) → r = None) as Hempty.
  { intros Hnone. destruct r as [a'|]; [exfalso|done].
    destruct (pruned_has_key h' a') as (T & k2 & v & HG); [by apply Hpr'|done|].
    by rewrite Hnone in HG. }
  split; [|done]. intros Honly.
  assert (∀ T k2, Get T h' (mkTrie r) k2 = Ok None) as Hnone.
  { intros T k2. rewrite Hget. case_decide; [done|]. by apply Honly. }
  split; [done|]. by apply Hempty.
Qed.
End claims.

(** ** The operations on concrete tries *)

Lemma example_run : run example_ops empty_trie = Ok (example_trie, example_heap).
Proof. by vm_compute. Qed.

Lemma example_invariant :
  wf_trie example_heap example_trie ∧ pruned_trie example_heap example_trie.
Proof. apply (run_invariant example_ops), example_run. Qed.

Lemma single_run : run single_ops empty_trie = Ok (single_trie, single_heap).
Proof. by vm_compute. Qed.

Lemma single_invariant :
  wf_trie single_heap single_trie ∧ pruned_trie single_heap single_trie.
Proof. apply (run_invariant single_ops), single_run. Qed.

(** The scenario of the specification: after the three [Put], every key is
    read back at its type, and ["ac"] is absent. *)
Example scenario_Get :
  Get uint32_t example_heap example_trie (key_of "a") = Ok (Some 1%N) ∧
  Get uint64_t example_heap example_trie (key_of "ab") = Ok (Some 2%N) ∧
  Get std_string example_heap example_trie (key_of "abc") = Ok (Some "three"%string) ∧
  Get uint32_t example_heap example_trie (key_of "ac") = Ok None ∧
  Get uint64_t example_heap example_trie (key_of "a") = Ok None.
Proof. by vm_compute. Qed.

(** Then [Remove("ab")]: ["ab"] is absent, ["a"] and ["abc"] are still there. *)
Example scenario_Remove :
  ∃ t' h',
    Remove example_heap example_trie (key_of "ab") = Ok (t', h') ∧
    Get uint64_t h' t' (key_of "ab") = Ok None ∧
    Get uint32_t h' t' (key_of "a") = Ok (Some 1%N) ∧
    Get std_string h' t' (key_of "abc") = Ok (Some "three"%string).
Proof. eexists _, _. by vm_compute. Qed.

(** [Remove] of the only key leaves no root, and [Remove] on the trie without
    a root faults. *)
Example scenario_Remove_only_key :
  ∃ h',
    Remove single_heap single_trie (key_of "a") = Ok (mkTrie None, h') ∧
    Remove h' (mkTrie None) (key_of "a") = Fault ∧
    Remove h' (mkTrie None) [] = Fault.
Proof. eexists. by vm_compute. Qed.

(** The clone of the root is built before the test that prunes it: [Remove]
    of the only key stores one node and returns no root. *)
Example scenario_Remove_clone_count :
  ∃ h',
    Remove single_heap single_trie (key_of "a") = Ok (mkTrie None, h') ∧
    length h' = length single_heap + 1.
Proof. eexists. by vm_compute. Qed.

Lemma Put_Get_round_trip_witness :
  (∃ t' h',
     Put uint64_t example_heap example_trie (key_of "ab") 5%N = Ok (t', h') ∧
     Get uint64_t h' t' (key_of "ab") = Ok (Some 5%N)) ∧
  (∃ t1 h1 t2 h2,
     Put std_string example_heap example_trie (key_of "ab") "x"%string = Ok (t1, h1) ∧
     Put uint64_t h1 t1 (key_of "ab") 5%N = Ok (t2, h2) ∧
     Get uint64_t h2 t2 (key_of "ab") = Ok (Some 5%N)).
Proof.
  apply (Put_Get_round_trip (cpp_type := inst) uint64_t std_string
           example_heap example_trie (key_of "ab") 5%N "x"%string).
  exact (proj1 example_invariant).
Defined.

Lemma Get_type_mismatch_witness :
  (∀ v : inst uint32_t,
     Get uint32_t example_heap example_trie (key_of "a") = Ok (Some v) →
     Get uint64_t example_heap example_trie (key_of "a") = Ok None) ∧
  (∀ v : inst uint32_t, wf_trie example_heap example_trie →
     ∃ t' h',
       Put uint32_t example_heap example_trie (key_of "a") v = Ok (t', h') ∧
       Get uint64_t h' t' (key_of "a") = Ok None).
Proof.
  apply (Get_type_mismatch (cpp_type := inst) uint32_t uint64_t
           example_heap example_trie (key_of "a")).
  discriminate.
Defined.

Lemma Put_non_interference_witness :
  ∃ t' h',
    Put uint32_t example_heap example_trie (key_of "abcd") 4%N = Ok (t', h') ∧
    Get std_string h' t' (key_of "abc") =
      Get std_string example_heap example_trie (key_of "abc").
Proof.
  apply (Put_non_interference (cpp_type := inst) uint32_t std_string
           example_heap example_trie (key_of "abcd") (key_of "abc") 4%N).
  - exact (proj1 example_invariant).
  - discriminate.
Defined.

Lemma Put_Remove_Get_absent_witness :
  ∃ t1 h1 t2 h2,
    Put uint32_t example_heap example_trie (key_of "ab") 4%N = Ok (t1, h1) ∧
    Remove h1 t1 (key_of "ab") = Ok (t2, h2) ∧
    Get uint32_t h2 t2 (key_of "ab") = Ok None.
Proof.
  apply (Put_Remove_Get_absent (cpp_type := inst) uint32_t uint32_t
           example_heap example_trie (key_of "ab") 4%N).
  exact (proj1 example_invariant).
Defined.

Lemma Put_copy_on_write_frame_witness :
  ∃ t' h',
    Put uint32_t example_heap example_trie (key_of "ax") 4%N = Ok (t', h') ∧
    (∀ a n, example_heap !! a = Some n → h' !! a = Some n) ∧
    (∀ pre ch rest, key_of "ax" = pre ++ ch :: rest →
       ∃ q' n', addr_at h' t' pre = Some q' ∧
                length example_heap ≤ q' ∧
                h' !! q' = Some n' ∧
                frame_step (node_at example_heap example_trie pre) n' ch).
Proof.
  apply (Put_copy_on_write_frame (cpp_type := inst) uint32_t
           example_heap example_trie (key_of "ax") 4%N).
  exact (proj1 example_invariant).
Defined.

Lemma operations_terminate_witness :
  (∃ r, Get uint32_t example_heap example_trie (key_of "abc") = Ok r) ∧
  (∃ t' h', Put uint32_t example_heap example_trie (key_of "abc") 4%N = Ok (t', h')) ∧
  (∀ fuel, length (key_of "abc") < fuel →
     Remove_dfs fuel (key_of "abc") (root_ example_trie) 0 example_heap ≠ OutOfFuel ∧
     Remove_dfs fuel (key_of "abc") (root_ example_trie) 0 example_heap =
       Remove_dfs (S (length (key_of "abc"))) (key_of "abc")
         (root_ example_trie) 0 example_heap) ∧
  (root_ example_trie ≠ None →
     ∃ t' h', Remove example_heap example_trie (key_of "abc") = Ok (t', h')).
Proof.
  apply (operations_terminate (cpp_type := inst) uint32_t
           example_heap example_trie (key_of "abc") 4%N).
  exact (proj1 example_invariant).
Defined.

Lemma single_only_key T k2 :
  k2 ≠ key_of "a" → Get (cpp_type := inst) T single_heap single_trie k2 = Ok None.
Proof.
  intros Hne.
  assert (Put uint32_t [] (mkTrie None) (key_of "a") 1%N
          = Ok (single_trie, single_heap)) as HP by (by vm_compute).
  destruct (Put_spec (cpp_type := inst) uint32_t [] (mkTrie None) (key_of "a") 1%N I)
    as (r & h' & HP' & _ & _ & Hget & _).
  rewrite HP in HP'.
  assert (single_trie = mkTrie (Some r) ∧ single_heap = h') as [Ht Hh]
    by (split; congruence).
  by rewrite Ht, Hh, Hget, decide_False.
Qed.

Lemma Remove_last_mapping_witness :
  ∃ t' h',
    Remove single_heap single_trie (key_of "a") = Ok (t', h') ∧
    (∀ T k2, Get (cpp_type := inst) T h' t' k2 = Ok None) ∧
    root_ t' = None.
Proof.
  destruct (Remove_last_mapping (cpp_type := inst) single_heap single_trie (key_of "a")
              (proj1 single_invariant) (proj2 single_invariant))
    as (t' & h' & HR & Hlast & _); [discriminate|].
  exists t', h'. split; [exact HR|].
  apply Hlast. intros T k2. apply single_only_key.
Defined.

(** ** Further properties of [Get], [Put] and [Remove] *)

Section more.
Context {TypeId : Type} `{!EqDecision TypeId} {cpp_type : TypeId → Type}.
Abbreviation TrieNode := (TrieNode cpp_type).
Abbreviation heap := (heap cpp_type).
Implicit Types (h : heap) (n : TrieNode) (a : addr) (p : ptr) (key pre : list ascii).
Implicit Types (t : Trie) (ops : list (op (cpp_type := cpp_type))).

(** *** Nodes off the path of the key *)

Lemma addr_at_no_root h pre : addr_at h (mkTrie None) pre = None.
Proof. done. Qed.

Lemma addr_at_fresh h c pre :
  addr_at (h ++ [PlainTrieNode ∅]) (mkTrie (Some (length h))) (c :: pre) = None.
Proof.
  rewrite (addr_at_cons _ _ _ _ _ (lookup_fresh _ _)).
  unfold child; simpl. by rewrite lookup_empty.
Qed.

Lemma Put_dfs_shares T (v : cpp_type T) kv a h :
  wf_node h a →
  ∃ r h',
    Put_dfs T v kv (Some a) h = Ok (Some r, h') ∧
    ∀ k2, ¬ k2 `prefix_of` kv →
          addr_at h' (mkTrie (Some r)) k2 = addr_at h (mkTrie (Some a)) k2.
Proof.
  revert a h. induction kv as [|ch kv IH]; intros a h Hwf.
  - open_node Hwf n Ha Hnn Hk.
    rewrite (Put_dfs_nil _ _ _ _ _ Ha).
    eexists _, _. split; [done|]. intros [|c k2] Hnp.
    { destruct Hnp. apply prefix_nil. }
    rewrite (addr_at_cons _ _ _ _ _ (lookup_fresh _ _)).
    rewrite (addr_at_cons _ _ _ _ _ Ha).
    change (child (TrieNodeWithValue T (children_ n) v) c) with (child n c).
    apply addr_at_mono; [eauto using wf_ptr_child|apply prefix_snoc].
  - open_node Hwf n Ha Hnn Hk.
    destruct (Put_dfs_cons T v ch kv a n h Ha Hnn) as (next & h0 & Hcase & ->).
    destruct (next_node_facts _ _ _ _ _ _ Hwf Ha Hcase) as (Hp0 & Hwf0 & _).
    destruct (Put_dfs_spec T v kv next h0 Hwf0) as (r' & h1 & Hrun & Hp1 & Hwf1 & _).
    destruct (IH next h0 Hwf0) as (r0 & h10 & Hrun0 & Hsh).
    rewrite Hrun in Hrun0. injection Hrun0 as <- <-. rewrite Hrun.
    eexists _, _. split; [done|]. intros [|c k2] Hnp.
    { destruct Hnp. apply prefix_nil. }
    rewrite (addr_at_cons _ _ _ _ _ (lookup_fresh _ _)).
    rewrite (addr_at_cons _ _ _ _ _ Ha).
    unfold child at 1. rewrite children_set_children.
    destruct (decide (ch = c)) as [->|Hne].
    + rewrite lookup_insert_eq. simpl.
      rewrite (addr_at_mono h1); [|done|apply prefix_snoc].
      assert (¬ k2 `prefix_of` kv) as Hnp' by (intros ?; by apply Hnp, prefix_cons).
      rewrite (Hsh _ Hnp').
      destruct Hcase as [[Hc ->]|(Hc & -> & ->)].
      * by rewrite (child_Some _ _ _ Hc).
      * rewrite (child_None _ _ Hc), addr_at_no_root.
        destruct k2 as [|c2 k2]; [destruct Hnp'; apply prefix_nil|].
        apply addr_at_fresh.
    + rewrite lookup_insert_ne by done.
      change (default None (children_ n !! c)) with (child n c).
      apply addr_at_mono; [eauto using wf_ptr_child|].
      by etrans; [|etrans; [|apply prefix_snoc]].
Qed.

Lemma Remove_dfs_shares fuel key ind a h :
  wf_node h a → ind ≤ length key → length key - ind < fuel →
  ∃ r h',
    Remove_dfs fuel key (Some a) ind h = Ok (r, h') ∧
    ∀ k2, ¬ k2 `prefix_of` drop ind key →
          addr_at h' (mkTrie r) k2 = addr_at h (mkTrie (Some a)) k2.
Proof.
  revert ind a h. induction fuel as [|fuel IH]; intros ind a h Hwf Hle Hlt; [lia|].
  open_node Hwf n Ha Hnn Hk.
  destruct (decide (ind = length key)) as [->|Hind].
  - rewrite (Remove_dfs_terminal _ _ _ _ _ Ha), drop_all.
    destruct (is_value_node_ n) eqn:Hv; simpl.
    + case_bool_decide as He.
      * exists None, h. split; [done|]. intros [|c k2] Hnp.
        { destruct Hnp. apply prefix_nil. }
        rewrite (addr_at_cons _ _ _ _ _ Ha). unfold child.
        by rewrite He, lookup_empty.
      * eexists _, _. split; [done|]. intros [|c k2] Hnp.
        { destruct Hnp. apply prefix_nil. }
        rewrite (addr_at_cons _ _ _ _ _ (lookup_fresh _ _)).
        rewrite (addr_at_cons _ _ _ _ _ Ha).
        change (child (PlainTrieNode (children_ n)) c) with (child n c).
        apply addr_at_mono; [eauto using wf_ptr_child|apply prefix_snoc].
    + by exists (Some a), h.
  - destruct (lookup_lt_is_Some_2 key ind) as [ch Hch]; [lia|].
    rewrite (Remove_dfs_step _ _ _ _ _ _ _ Ha Hch).
    rewrite (drop_S _ _ _ Hch).
    destruct (children_ n !! ch) as [[b|]|] eqn:Hc; [|by destruct (Hnn ch)|].
    + destruct (Remove_dfs_spec fuel key (S ind) b h)
        as (r1 & h1 & Hrun & Hp1 & Hwf1 & _); [eauto|lia|lia|].
      destruct (IH (S ind) b h) as (r0 & h10 & Hrun0 & Hsh); [eauto|lia|lia|].
      rewrite Hrun in Hrun0. injection Hrun0 as <- <-.
      replace (ind + 1) with (S ind) by lia. rewrite Hrun.
      set (upd := updated_children n ch r1).
      assert (∀ c, upd !! c ≠ Some None) as Hnn'
        by (intros c; by apply updated_children_no_null).
      assert (∀ c, wf_ptr h1 (default None (upd !! c))) as Hwfu.
      { intros c. unfold upd. rewrite updated_children_lookup.
        case_decide; [done|]. eapply wf_ptr_mono; eauto using wf_ptr_child. }
      assert (∀ c k2, ¬ (c :: k2) `prefix_of` (ch :: drop (S ind) key) →
        addr_at h1 (mkTrie (default None (upd !! c))) k2 =
        addr_at h (mkTrie (child n c)) k2) as Hshu.
      { intros c k2 Hnp. unfold upd. rewrite updated_children_lookup.
        destruct (decide (c = ch)) as [->|Hne].
        - rewrite Hsh, (child_Some _ _ _ Hc); [done|].
          intros ?. by apply Hnp, prefix_cons.
        - apply addr_at_mono; eauto using wf_ptr_child. }
      destruct (bool_decide (upd = ∅) && negb (is_value_node_ n)) eqn:Hb.
      * apply andb_true_iff in Hb as [He Hv].
        apply bool_decide_eq_true_1 in He.
        eexists None, _. split; [done|]. intros [|c k2] Hnp.
        { destruct Hnp. apply prefix_nil. }
        rewrite (addr_at_cons _ _ _ _ _ Ha), <-(Hshu _ _ Hnp).
        by rewrite He, lookup_empty.
      * set (new := set_children n upd).
        assert (children_ new = upd) as Hcn by apply children_set_children.
        eexists _, _. split; [done|]. intros [|c k2] Hnp.
        { destruct Hnp. apply prefix_nil. }
        rewrite (addr_at_cons _ _ _ _ _ (lookup_fresh _ _)).
        rewrite (addr_at_cons _ _ _ _ _ Ha).
        unfold child at 1. rewrite Hcn.
        rewrite (addr_at_mono h1); [|done|apply prefix_snoc].
        by apply Hshu.
    + by exists (Some a), h.
Qed.

(** *** Allocations *)

Lemma Put_dfs_allocates T (v : cpp_type T) kv a h :
  wf_node h a →
  ∃ r h',
    Put_dfs T v kv (Some a) h = Ok (Some r, h') ∧
    length h + length kv + 1 ≤ length h' ≤ length h + 2 * length kv + 1 ∧
    (is_Some (addr_at h (mkTrie (Some a)) kv) →
     length h' = length h + length kv + 1).
Proof.
  revert a h. induction kv as [|ch kv IH]; intros a h Hwf.
  - open_node Hwf n Ha Hnn Hk.
    rewrite (Put_dfs_nil _ _ _ _ _ Ha).
    eexists _, _. split; [done|]. rewrite length_app. simpl. lia.
  - open_node Hwf n Ha Hnn Hk.
    destruct (Put_dfs_cons T v ch kv a n h Ha Hnn) as (next & h0 & Hcase & ->).
    destruct (next_node_facts _ _ _ _ _ _ Hwf Ha Hcase) as (_ & Hwf0 & _).
    destruct (IH next h0 Hwf0) as (r' & h1 & -> & Hb & Hex).
    eexists _, _. split; [done|]. rewrite length_app.
    rewrite (addr_at_cons _ _ _ _ _ Ha). cbn [length].
    destruct Hcase as [[Hc ->]|(Hc & -> & ->)].
    + rewrite (child_Some _ _ _ Hc). split; [lia|].
      intros Hs. rewrite (Hex Hs). lia.
    + rewrite (child_None _ _ Hc), addr_at_no_root.
      rewrite length_app in Hb. cbn [length] in Hb.
      split; [lia|]. by intros [? ?].
Qed.

Lemma Remove_dfs_allocates fuel key ind a h :
  wf_node h a → ind ≤ length key → length key - ind < fuel →
  ∃ r h',
    Remove_dfs fuel key (Some a) ind h = Ok (r, h') ∧
    length h ≤ length h' ≤ length h + (length key - ind) + 1 ∧
    (is_Some (addr_at h (mkTrie (Some a)) (drop ind key)) →
     length h + (length key - ind) ≤ length h').
Proof.
  revert ind a h. induction fuel as [|fuel IH]; intros ind a h Hwf Hle Hlt; [lia|].
  open_node Hwf n Ha Hnn Hk.
  destruct (decide (ind = length key)) as [->|Hind].
  - rewrite (Remove_dfs_terminal _ _ _ _ _ Ha).
    destruct (is_value_node_ n); simpl.
    + case_bool_decide.
      * exists None, h. split; [done|lia].
      * eexists _, _. split; [done|]. rewrite length_app. simpl. lia.
    + exists (Some a), h. split; [done|lia].
  - destruct (lookup_lt_is_Some_2 key ind) as [ch Hch]; [lia|].
    rewrite (Remove_dfs_step _ _ _ _ _ _ _ Ha Hch).
    rewrite (drop_S _ _ _ Hch), (addr_at_cons _ _ _ _ _ Ha).
    destruct (children_ n !! ch) as [[b|]|] eqn:Hc; [|by destruct (Hnn ch)|].
    + destruct (IH (S ind) b h) as (r1 & h1 & Hrun & Hb & Hlow); [eauto|lia|lia|].
      replace (ind + 1) with (S ind) by lia. rewrite Hrun.
      eexists _, _. split; [done|]. rewrite length_app. cbn [length].
      rewrite (child_Some _ _ _ Hc). split; [lia|].
      intros Hs. specialize (Hlow Hs). lia.
    + exists (Some a), h. split; [done|]. split; [lia|].
      rewrite (child_None _ _ Hc), addr_at_no_root. by intros [? ?].
Qed.

(** *** Paths and the keys below them *)

Lemma addr_at_invariants h p pre q :
  wf_ptr h p → addr_at h (mkTrie p) pre = Some q →
  wf_node h q ∧ (pruned_ptr h p → pruned_node h q).
Proof.
  revert p. induction pre as [|c pre IH]; intros p Hwf Hq.
  - destruct p as [a|]; [|done]. rewrite addr_at_nil in Hq. by simplify_eq.
  - destruct p as [a|]; [|done]. simpl in Hwf.
    open_node Hwf n Ha Hnn Hk.
    rewrite (addr_at_cons _ _ _ _ _ Ha) in Hq.
    destruct (IH (child n c) (wf_ptr_child _ _ _ c Hwf Ha) Hq) as (Hwq & Hpq).
    split; [done|]. intros Hpr. apply Hpq.
    eapply pruned_ptr_child; eauto using pruned_node_kids.
Qed.

Lemma addr_at_Get T h p pre q k :
  wf_ptr h p → addr_at h (mkTrie p) pre = Some q →
  Get T h (mkTrie p) (pre ++ k) = Get T h (mkTrie (Some q)) k.
Proof.
  revert p. induction pre as [|c pre IH]; intros p Hwf Hq.
  - destruct p as [a|]; [|done]. rewrite addr_at_nil in Hq. by simplify_eq.
  - destruct p as [a|]; [|done]. simpl in Hwf.
    open_node Hwf n Ha Hnn Hk.
    rewrite (addr_at_cons _ _ _ _ _ Ha) in Hq.
    cbn [app]. rewrite (Get_cons _ _ _ _ _ _ Ha Hnn).
    apply IH; [|done]. by eapply wf_ptr_child.
Qed.
End more.

Section more_properties.
Context {TypeId : Type} `{!EqDecision TypeId} {cpp_type : TypeId → Type}.
Abbreviation TrieNode := (TrieNode cpp_type).
Abbreviation heap := (heap cpp_type).
Implicit Types (h : heap) (n : TrieNode) (a : addr) (p : ptr) (key pre : list ascii).
Implicit Types (t : Trie) (ops : list (op (cpp_type := cpp_type))).

(** X1.  [Remove] on a well-formed trie that has a root returns a trie in
    which the key is absent and every other key reads as before, at every
    type. *)
Theorem Remove_removes_only_key T h t key k2 :
  wf_trie h t → root_ t ≠ None →
  ∃ t' h',
    Remove h t key = Ok (t', h') ∧
    Get T h' t' k2 = if decide (k2 = key) then Ok None else Get T h t k2.
Proof.
  intros Hwf Hroot. destruct t as [[a|]]; [|done].
  destruct (Remove_spec h a key Hwf) as (r & h' & HR & _ & _ & Hget & _).
  exists (mkTrie r), h'. by split.
Qed.

(** X2.  [Remove] of a key that is not mapped, on a well-formed trie that has
    a root, returns a trie in which every key reads as before; when the trie
    satisfies the pruning invariant the trie returned has a root too. *)
Theorem Remove_unmapped_noop h t key :
  wf_trie h t → root_ t ≠ None →
  (∀ T, Get (cpp_type := cpp_type) T h t key = Ok None) →
  ∃ t' h',
    Remove h t key = Ok (t', h') ∧
    (∀ T k2, Get T h' t' k2 = Get T h t k2) ∧
    (pruned_trie h t → root_ t' ≠ None).
Proof.
  intros Hwf Hroot Hun. destruct t as [[a|]]; [|done].
  destruct (Remove_unmapped_rooted h a key Hwf Hun) as (t' & h' & HR & Hget).
  exists t', h'. split; [done|]. split; [done|].
  intros Hpr Hnone.
  destruct (pruned_has_key h a Hpr Hwf) as (T & k2 & v & HG).
  rewrite <-Hget in HG. destruct t' as [r']. simpl in Hnone. by subst.
Qed.

(** X3.  On a well-formed trie that has a root, when [Remove] of a key leaves
    a root, [Remove] of the key once more returns a trie in which every key
    reads as after the first. *)
Theorem Remove_idempotent_when_rooted h t key :
  wf_trie h t → root_ t ≠ None →
  ∃ t1 h1,
    Remove h t key = Ok (t1, h1) ∧
    (root_ t1 ≠ None →
     ∃ t2 h2,
       Remove h1 t1 key = Ok (t2, h2) ∧
       ∀ T k2, Get (cpp_type := cpp_type) T h2 t2 k2 = Get T h1 t1 k2).
Proof.
  intros Hwf Hroot. destruct t as [[a|]]; [|done].
  destruct (Remove_spec h a key Hwf) as (r & h1 & HR & _).
  exists (mkTrie r), h1. split; [done|]. intros Hr.
  by apply (Remove_idempotent_rooted h a key).
Qed.

(** X5.  [Put] shares what is off the path of the key: at every position that
    is not a prefix of the key, the new trie has the very node the prior trie
    had there, or none if the prior trie had none. *)
Theorem Put_shares_off_path T h t key (v : cpp_type T) :
  wf_trie h t →
  ∃ t' h',
    Put T h t key v = Ok (t', h') ∧
    ∀ k2, ¬ k2 `prefix_of` key → addr_at h' t' k2 = addr_at h t k2.
Proof.
  intros Hwf. rewrite Put_unfold. destruct t as [[a|]]; cbn [root_].
  - destruct (Put_dfs_shares T v key a h Hwf) as (r & h' & -> & Hsh).
    by exists (mkTrie (Some r)), h'.
  - destruct (Put_dfs_shares T v key (length h) _ (wf_fresh h)) as (r & h' & -> & Hsh).
    exists (mkTrie (Some r)), h'. split; [done|]. intros k2 Hnp.
    rewrite (Hsh _ Hnp), addr_at_no_root.
    destruct k2 as [|c k2]; [destruct Hnp; apply prefix_nil|].
    apply addr_at_fresh.
Qed.

(** X6.  [Remove] shares what is off the path of the key: on a well-formed
    trie that has a root, at every position that is not a prefix of the key
    the trie returned has the very node the prior trie had there, or none if
    the prior trie had none. *)
Theorem Remove_shares_off_path h t key :
  wf_trie h t → root_ t ≠ None →
  ∃ t' h',
    Remove h t key = Ok (t', h') ∧
    ∀ k2, ¬ k2 `prefix_of` key → addr_at h' t' k2 = addr_at h t k2.
Proof.
  intros Hwf Hroot. destruct t as [[a|]]; [|done].
  rewrite Remove_unfold. cbn [root_].
  destruct (Remove_dfs_shares (S (length key)) key 0 a h Hwf)
    as (r & h' & -> & Hsh); [lia|lia|].
  rewrite drop_0 in Hsh. by exists (mkTrie r), h'.
Qed.

(** X7.  [Put] allocates between [length key + 1] and [2 * length key + 2]
    nodes, whatever the size of the trie, and exactly [length key + 1] when
    the trie already has a node at the key. *)
Theorem Put_allocation T h t key (v : cpp_type T) :
  wf_trie h t →
  ∃ t' h',
    Put T h t key v = Ok (t', h') ∧
    length h + length key + 1 ≤ length h' ≤ length h + 2 * length key + 2 ∧
    (is_Some (addr_at h t key) → length h' = length h + length key + 1).
Proof.
  intros Hwf. rewrite Put_unfold. destruct t as [[a|]]; cbn [root_].
  - destruct (Put_dfs_allocates T v key a h Hwf) as (r & h' & -> & Hb & Hex).
    exists (mkTrie (Some r)), h'. split; [done|]. split; [lia|done].
  - destruct (Put_dfs_allocates T v key (length h) _ (wf_fresh h))
      as (r & h' & -> & Hb & _).
    exists (mkTrie (Some r)), h'. split; [done|].
    rewrite length_app in Hb. cbn [length] in Hb. split; [lia|].
    rewrite addr_at_no_root. by intros [? ?].
Qed.

(** X8.  [Remove] on a well-formed trie that has a root allocates at most
    [length key + 1] nodes, whatever the size of the trie, and at least
    [length key] when the trie has a node at the key: one clone for each node
    above it, also for the clones that pruning drops. *)
Theorem Remove_allocation h t key :
  wf_trie h t → root_ t ≠ None →
  ∃ t' h',
    Remove h t key = Ok (t', h') ∧
    length h ≤ length h' ≤ length h + length key + 1 ∧
    (is_Some (addr_at h t key) → length h + length key ≤ length h').
Proof.
  intros Hwf Hroot. destruct t as [[a|]]; [|done].
  rewrite Remove_unfold. cbn [root_].
  destruct (Remove_dfs_allocates (S (length key)) key 0 a h Hwf)
    as (r & h' & -> & Hb & Hlow); [lia|lia|].
  rewrite drop_0 in Hlow.
  exists (mkTrie r), h'. split; [done|]. split; [lia|].
  intros Hs. specialize (Hlow Hs). lia.
Qed.

(** X9.  [Put] at two different keys in either order: both orders return
    tries in which every key reads the same, at every type. *)
Theorem Put_commute T1 T2 h t k1 k2 (v1 : cpp_type T1) (v2 : cpp_type T2) :
  wf_trie h t → k1 ≠ k2 →
  ∃ t1 h1 t12 h12 t2 h2 t21 h21,
    Put T1 h t k1 v1 = Ok (t1, h1) ∧ Put T2 h1 t1 k2 v2 = Ok (t12, h12) ∧
    Put T2 h t k2 v2 = Ok (t2, h2) ∧ Put T1 h2 t2 k1 v1 = Ok (t21, h21) ∧
    ∀ T k, Get T h12 t12 k = Get T h21 t21 k.
Proof.
  intros Hwf Hne.
  destruct (Put_spec T1 h t k1 v1 Hwf) as (r1 & h1 & HP1 & _ & Hwf1 & Hg1 & _).
  destruct (Put_spec T2 h1 (mkTrie (Some r1)) k2 v2 Hwf1)
    as (r12 & h12 & HP12 & _ & _ & Hg12 & _).
  destruct (Put_spec T2 h t k2 v2 Hwf) as (r2 & h2 & HP2 & _ & Hwf2 & Hg2 & _).
  destruct (Put_spec T1 h2 (mkTrie (Some r2)) k1 v1 Hwf2)
    as (r21 & h21 & HP21 & _ & _ & Hg21 & _).
  eexists _, _, _, _, _, _, _, _. repeat (split; [done|]).
  intros T k. rewrite Hg12, Hg21, Hg1, Hg2.
  repeat case_decide; by simplify_eq.
Qed.

(** X10.  [Put] of a key that is not mapped and then [Remove] of the key
    return a trie in which every key reads as in the trie before the two; a
    trie that satisfies the pruning invariant ends without a root exactly when
    it started without one. *)
Theorem Put_Remove_undo T h t key (v : cpp_type T) :
  wf_trie h t →
  (∀ T', Get (cpp_type := cpp_type) T' h t key = Ok None) →
  ∃ t1 h1 t2 h2,
    Put T h t key v = Ok (t1, h1) ∧
    Remove h1 t1 key = Ok (t2, h2) ∧
    (∀ T' k2, Get T' h2 t2 k2 = Get T' h t k2) ∧
    (pruned_trie h t → (root_ t2 = None ↔ root_ t = None)).
Proof.
  intros Hwf Hun.
  destruct (Put_spec T h t key v Hwf) as (r & h1 & HP & _ & Hwf1 & Hg1 & Hpr1).
  destruct (Remove_spec h1 r key Hwf1) as (r2 & h2 & HR & _ & Hwf2 & Hg2 & Hpr2).
  exists (mkTrie (Some r)), h1, (mkTrie r2), h2.
  split; [done|]. split; [done|].
  assert (∀ T' k2, Get T' h2 (mkTrie r2) k2 = Get T' h t k2) as Hsame.
  { intros T' k2. rewrite Hg2. case_decide; [by subst|].
    by rewrite Hg1, decide_False. }
  split; [done|]. intros Hpr. cbn [root_]. split.
  - intros ->. destruct t as [[a|]]; [exfalso|done].
    destruct (pruned_has_key h a Hpr Hwf) as (T' & k2 & v' & HG).
    by rewrite <-Hsame in HG.
  - destruct t as [p]. cbn [root_]. intros ->.
    destruct r2 as [a2|]; [exfalso|done].
    destruct (pruned_has_key h2 a2) as (T' & k2 & v' & HG); [by apply Hpr2, Hpr1|done|].
    by rewrite Hsame in HG.
Qed.

(** X11.  No dead branch: in the trie a sequence of [Put] and [Remove] run
    from the empty trie ends in, every path that leads to a node is the prefix
    of a key at which [Get] finds a value. *)
Theorem no_dead_branch ops :
  match run ops empty_trie with
  | Ok (t, h) =>
      ∀ pre q, addr_at h t pre = Some q →
               ∃ T suffix (v : cpp_type T), Get T h t (pre ++ suffix) = Ok (Some v)
  | _ => True
  end.
Proof.
  pose proof (run_outcome ops empty_trie I I) as H.
  destruct (run ops empty_trie) as [[t h]| |]; [|done|done].
  destruct H as [Hwf Hpr]. intros pre q Hq. destruct t as [p].
  destruct (addr_at_invariants h p pre q Hwf Hq) as [Hwq Hpq].
  destruct (pruned_has_key h q (Hpq Hpr) Hwq) as (T & k & v & HG).
  exists T, k, v. by rewrite (addr_at_Get T h p pre q k Hwf Hq).
Qed.

(** X12.  On a well-formed trie with a root that satisfies the pruning
    invariant, [Remove] returns the trie without a root exactly when no key
    other than the removed one was mapped. *)
Theorem Remove_empties_iff_only_key h t key :
  wf_trie h t → pruned_trie h t → root_ t ≠ None →
  ∃ t' h',
    Remove h t key = Ok (t', h') ∧
    (root_ t' = None ↔
     ∀ T k2, k2 ≠ key → Get (cpp_type := cpp_type) T h t k2 = Ok None).
Proof.
  intros Hwf Hpr Hroot. destruct t as [[a|]]; [|done].
  destruct (Remove_spec h a key Hwf) as (r & h' & HR & _ & Hwf' & Hget & Hpr').
  exists (mkTrie r), h'. split; [done|]. cbn [root_]. split.
  - intros -> T k2 Hne. specialize (Hget T k2).
    by rewrite decide_False in Hget.
  - intros Hnone. destruct r as [a'|]; [exfalso|done].
    destruct (pruned_has_key h' a') as (T & k2 & v & HG); [by apply Hpr'|done|].
    rewrite Hget in HG. case_decide; [done|].
    by rewrite Hnone in HG.
Qed.
End more_properties.

(** ** The further properties on concrete tries *)

Lemma Remove_removes_only_key_witness :
  ∃ t' h',
    Remove example_heap example_trie (key_of "ab") = Ok (t', h') ∧
    Get std_string h' t' (key_of "abc") =
      if decide (key_of "abc" = key_of "ab") then Ok None
      else Get std_string example_heap example_trie (key_of "abc").
Proof.
  apply (Remove_removes_only_key (cpp_type := inst) std_string
           example_heap example_trie (key_of "ab") (key_of "abc")).
  - exact (proj1 example_invariant).
  - discriminate.
Defined.

Lemma Remove_unmapped_noop_witness :
  ∃ t' h',
    Remove example_heap example_trie (key_of "ax") = Ok (t', h') ∧
    (∀ T k2, Get (cpp_type := inst) T h' t' k2 = Get T example_heap example_trie k2) ∧
    (pruned_trie example_heap example_trie → root_ t' ≠ None).
Proof.
  apply (Remove_unmapped_noop (cpp_type := inst)
           example_heap example_trie (key_of "ax")).
  - exact (proj1 example_invariant).
  - discriminate.
  - intros T. by vm_compute.
Defined.

Lemma Remove_idempotent_when_rooted_witness :
  ∃ t1 h1,
    Remove example_heap example_trie (key_of "ab") = Ok (t1, h1) ∧
    (root_ t1 ≠ None →
     ∃ t2 h2,
       Remove h1 t1 (key_of "ab") = Ok (t2, h2) ∧
       ∀ T k2, Get (cpp_type := inst) T h2 t2 k2 = Get T h1 t1 k2).
Proof.
  apply (Remove_idempotent_when_rooted (cpp_type := inst)
           example_heap example_trie (key_of "ab")).
  - exact (proj1 example_invariant).
  - discriminate.
Defined.

Lemma Put_shares_off_path_witness :
  ∃ t' h',
    Put uint32_t example_heap example_trie (key_of "ax") 4%N = Ok (t', h') ∧
    ∀ k2, ¬ k2 `prefix_of` key_of "ax" →
          addr_at h' t' k2 = addr_at example_heap example_trie k2.
Proof.
  apply (Put_shares_off_path (cpp_type := inst) uint32_t
           example_heap example_trie (key_of "ax") 4%N).
  exact (proj1 example_invariant).
Defined.

Lemma Remove_shares_off_path_witness :
  ∃ t' h',
    Remove example_heap example_trie (key_of "a") = Ok (t', h') ∧
    ∀ k2, ¬ k2 `prefix_of` key_of "a" →
          addr_at h' t' k2 = addr_at example_heap example_trie k2.
Proof.
  apply (Remove_shares_off_path (cpp_type := inst)
           example_heap example_trie (key_of "a")).
  - exact (proj1 example_invariant).
  - discriminate.
Defined.

Lemma Put_allocation_witness :
  ∃ t' h',
    Put uint32_t example_heap example_trie (key_of "ab") 4%N = Ok (t', h') ∧
    length example_heap + length (key_of "ab") + 1 ≤ length h'
      ≤ length example_heap + 2 * length (key_of "ab") + 2 ∧
    (is_Some (addr_at example_heap example_trie (key_of "ab")) →
     length h' = length example_heap + length (key_of "ab") + 1).
Proof.
  apply (Put_allocation (cpp_type := inst) uint32_t
           example_heap example_trie (key_of "ab") 4%N).
  exact (proj1 example_invariant).
Defined.

Lemma Remove_allocation_witness :
  ∃ t' h',
    Remove example_heap example_trie (key_of "ab") = Ok (t', h') ∧
    length example_heap ≤ length h'
      ≤ length example_heap + length (key_of "ab") + 1 ∧
    (is_Some (addr_at example_heap example_trie (key_of "ab")) →
     length example_heap + length (key_of "ab") ≤ length h').
Proof.
  apply (Remove_allocation (cpp_type := inst)
           example_heap example_trie (key_of "ab")).
  - exact (proj1 example_invariant).
  - discriminate.
Defined.

Lemma Put_commute_witness :
  ∃ t1 h1 t12 h12 t2 h2 t21 h21,
    Put uint32_t example_heap example_trie (key_of "ab") 4%N = Ok (t1, h1) ∧
    Put std_string h1 t1 (key_of "a") "x"%string = Ok (t12, h12) ∧
    Put std_string example_heap example_trie (key_of "a") "x"%string = Ok (t2, h2) ∧
    Put uint32_t h2 t2 (key_of "ab") 4%N = Ok (t21, h21) ∧
    ∀ T k, Get (cpp_type := inst) T h12 t12 k = Get T h21 t21 k.
Proof.
  apply (Put_commute (cpp_type := inst) uint32_t std_string
           example_heap example_trie (key_of "ab") (key_of "a") 4%N "x"%string).
  - exact (proj1 example_invariant).
  - discriminate.
Defined.

Lemma Put_Remove_undo_witness :
  ∃ t1 h1 t2 h2,
    Put uint32_t example_heap example_trie (key_of "ax") 4%N = Ok (t1, h1) ∧
    Remove h1 t1 (key_of "ax") = Ok (t2, h2) ∧
    (∀ T' k2, Get (cpp_type := inst) T' h2 t2 k2 =
              Get T' example_heap example_trie k2) ∧
    (pruned_trie example_heap example_trie →
     (root_ t2 = None ↔ root_ example_trie = None)).
Proof.
  apply (Put_Remove_undo (cpp_type := inst) uint32_t
           example_heap example_trie (key_of "ax") 4%N).
  - exact (proj1 example_invariant).
  - intros T. by vm_compute.
Defined.

Lemma Remove_empties_iff_only_key_witness :
  ∃ t' h',
    Remove single_heap single_trie (key_of "a") = Ok (t', h') ∧
    (root_ t' = None ↔
     ∀ T k2, k2 ≠ key_of "a" →
             Get (cpp_type := inst) T single_heap single_trie k2 = Ok None).
Proof.
  apply (Remove_empties_iff_only_key (cpp_type := inst)
           single_heap single_trie (key_of "a")).
  - exact (proj1 single_invariant).
  - exact (proj2 single_invariant).
  - discriminate.
Defined.
